(** * json-render playground: patch applier, stream consumer and renderer

    A shallow embedding of the playground demo component
    ([parsePatch], [applyPatch], the reader loop of [handleSubmit],
    [renderElement], [renderPreview] and the [SIMULATION_STAGES] fixture)
    together with the properties its specification states about them.

    JavaScript strings are sequences of UTF-16 code units, JSON numbers are
    IEEE binary64 values obtained by correct rounding, and an object used as
    a dictionary is the finite map of its own properties together with its
    prototype, through which a property read falls back. *)

From Stdlib Require Import ZArith NArith Ascii String Bool List Lia.
From Stdlib Require Strings.Byte.
From stdpp Require Import base option list gmap.

Local Open Scope Z_scope.
Local Set Warnings "-register-all".

(** ** JavaScript strings *)

Module JsString.

(** A string is the list of its UTF-16 code units. *)
Definition jsstring := list N.

(** [js "abc"] is the JavaScript string literal abc (ASCII only). *)
Definition js (s : string) : jsstring := map N_of_ascii (list_ascii_of_string s).

(** [jsq "{'a':1}"] is the JavaScript string literal in which every
    apostrophe of the argument stands for a quotation mark (code unit 34);
    used to write JSON text. *)
Definition jsq (s : string) : jsstring :=
  map (fun c => if N.eqb c 39 then 34%N else c) (js s).

Fixpoint str_eqb (a b : jsstring) : bool :=
  match a, b with
  | [], [] => true
  | x :: a', y :: b' => N.eqb x y && str_eqb a' b'
  | _, _ => false
  end.

(** [String.prototype.startsWith] with its one-argument form. *)
Fixpoint startsWith (s prefix : jsstring) {struct prefix} : bool :=
  match prefix, s with
  | [], _ => true
  | p :: prefix', c :: s' => N.eqb c p && startsWith s' prefix'
  | _ :: _, [] => false
  end.

(** [s.slice(n)] for [0 <= n]. *)
Definition slice (n : nat) (s : jsstring) : jsstring := drop n s.

(** [s.split(sep)] for a separator of one code unit; the result is never
    empty. *)
Fixpoint split (sep : N) (s : jsstring) : list jsstring :=
  match s with
  | [] => [[]]
  | c :: s' =>
      if N.eqb c sep then [] :: split sep s'
      else match split sep s' with
           | h :: t => (c :: h) :: t
           | [] => [[c]]
           end
  end.

(** [s.includes(sub)]. *)
Fixpoint includes (s sub : jsstring) : bool :=
  startsWith s sub ||
  match s with
  | [] => false
  | _ :: s' => includes s' sub
  end.

(** [arr.join(sep)] on an array of strings. *)
Fixpoint join (sep : jsstring) (l : list jsstring) : jsstring :=
  match l with
  | [] => []
  | [x] => x
  | x :: l' => x ++ sep ++ join sep l'
  end.

(** WhiteSpace and LineTerminator code units, the ones [trim] strips. *)
Definition is_trim_space (c : N) : bool :=
  let c := Z.of_N c in
  (c =? 9) || (c =? 10) || (c =? 11) || (c =? 12) || (c =? 13) || (c =? 32)
  || (c =? 160) || (c =? 5760) || ((8192 <=? c) && (c <=? 8202))
  || (c =? 8232) || (c =? 8233) || (c =? 8239) || (c =? 8287)
  || (c =? 12288) || (c =? 65279).

Fixpoint trimStart (s : jsstring) : jsstring :=
  match s with
  | c :: s' => if is_trim_space c then trimStart s' else s
  | [] => []
  end.

Definition trimEnd (s : jsstring) : jsstring := rev (trimStart (rev s)).

(** [String.prototype.trim]. *)
Definition trim (s : jsstring) : jsstring := trimEnd (trimStart s).

End JsString.

Export JsString.

(** ** Numbers *)

Module Number.

(** A binary64 value: [Finite neg m e] is [(-1)^neg * m * 2^e] in canonical
    form ([m = 0], or [e = -1074] and [m < 2^52], or [2^52 <= m < 2^53] and
    [-1074 <= e <= 971]). JSON text never denotes NaN. *)
Inductive number :=
| Finite (neg : bool) (m : Z) (e : Z)
| Infinity (neg : bool).

(** Round the positive rational [p / q] to the nearest binary64 value,
    ties to even. *)
Definition round_ratio (neg : bool) (p q : Z) : number :=
  let l := Z.log2 p - Z.log2 q in
  let ge_pow := if l <? 0 then q <=? p * 2 ^ (- l) else q * 2 ^ l <=? p in
  let fl := if ge_pow then l else l - 1 in
  let e := Z.max (fl - 52) (-1074) in
  let num := if e <? 0 then p * 2 ^ (- e) else p in
  let den := if e <? 0 then q else q * 2 ^ e in
  let n := num / den in
  let r := num mod den in
  let n1 := if 2 * r <? den then n
            else if den <? 2 * r then n + 1
            else if Z.even n then n else n + 1 in
  let '(n2, e2) := if n1 =? 2 ^ 53 then (2 ^ 52, e + 1) else (n1, e) in
  if 971 <? e2 then Infinity neg else Finite neg n2 e2.

(** The Number value of the decimal [(-1)^neg * digits * 10^exp10]. *)
Definition of_decimal (neg : bool) (digits : Z) (exp10 : Z) : number :=
  if digits =? 0 then Finite neg 0 (-1074)
  else if exp10 <? 0 then round_ratio neg digits (10 ^ (- exp10))
  else round_ratio neg (digits * 10 ^ exp10) 1.

Definition of_Z (z : Z) : number := of_decimal (z <? 0) (Z.abs z) 0.

Definition is_zero (n : number) : bool :=
  match n with
  | Finite _ m _ => m =? 0
  | Infinity _ => false
  end.

(** [a === b] on numbers: [+0] and [-0] are equal. *)
Definition num_eqb (a b : number) : bool :=
  match a, b with
  | Finite na ma ea, Finite nb mb eb =>
      ((ma =? 0) && (mb =? 0))
      || (Bool.eqb na nb && (ma =? mb) && (ea =? eb))
  | Infinity na, Infinity nb => Bool.eqb na nb
  | _, _ => false
  end.

End Number.

Export Number.

(** ** Values *)

(** The values the component handles: what [JSON.parse] can return, and
    [undefined] for a property that is absent. *)
Inductive jsvalue :=
| VUndefined
| VNull
| VBool (b : bool)
| VNum (n : number)
| VStr (s : jsstring)
| VArr (items : list jsvalue)
| VObj (props : list (jsstring * jsvalue)).

(** The second component of a list of pairs under the first occurrence of
    [k] from the right: a later member of a JSON object text overrides an
    earlier one of the same name. *)
Fixpoint assoc_last (k : jsstring) (l : list (jsstring * jsvalue)) : option jsvalue :=
  match l with
  | [] => None
  | (k', v) :: l' =>
      match assoc_last k l' with
      | Some w => Some w
      | None => if str_eqb k' k then Some v else None
      end
  end.

(** [v.name] for a property name that is neither an array index nor
    ["length"], on a value other than [undefined] and [null]. *)
Definition get (v : jsvalue) (name : jsstring) : jsvalue :=
  match v with
  | VObj props => default VUndefined (assoc_last name props)
  | _ => VUndefined
  end.

(** ToBoolean. *)
Definition truthy (v : jsvalue) : bool :=
  match v with
  | VUndefined | VNull => false
  | VBool b => b
  | VNum n => negb (is_zero n)
  | VStr s => match s with [] => false | _ => true end
  | VArr _ | VObj _ => true
  end.

(** [v === "literal"]. *)
Definition is_str (v : jsvalue) (lit : jsstring) : bool :=
  match v with
  | VStr s => str_eqb s lit
  | _ => false
  end.

(** [v === k] for a number literal [k]. *)
Definition is_num (v : jsvalue) (k : Z) : bool :=
  match v with
  | VNum n => num_eqb n (of_Z k)
  | _ => false
  end.

(** ** Exceptions *)

Inductive exn := TypeError.

Inductive result (A : Type) :=
| Ok (a : A)
| Throw (e : exn).
Arguments Ok {A} a.
Arguments Throw {A} e.

Definition bind {A B} (r : result A) (k : A -> result B) : result B :=
  match r with
  | Ok a => k a
  | Throw e => Throw e
  end.

Notation "x <- r ;; k" := (bind r (fun x => k))
  (at level 100, r at next level, right associativity).

(** ** The UI tree and the patch applier *)

(** [root] and the element records are whatever value a patch carried:
    the casts in [applyPatch] check nothing. [elements] maps the own
    property names of the elements object to their values; this is the
    tree as data, what a spread copies and [JSON.stringify] shows. The
    prototype of the elements object is kept beside it where the object is
    read. *)
Record UITree := mkTree {
  root : jsvalue;
  elements : gmap jsstring jsvalue
}.

(** *** The elements object as an ordinary object *)

(** The prototype of an elements object. An object literal and a spread
    create an object whose prototype is %Object.prototype%; only the
    [__proto__] accessor that every such object inherits can replace it,
    by an object or an array that a patch carried, or by null. *)
Inductive prototype :=
| ObjectPrototype
| NullPrototype
| ObjectValue (props : list (jsstring * jsvalue))
| ArrayValue (items : list jsvalue).

(** What a property read gives: a value of the program, or a built-in
    function or object of the language (a method of %Object.prototype% or
    %Array.prototype%, or %Object.prototype% itself). A built-in is truthy
    and has none of the properties the component reads. *)
Inductive member :=
| Value (v : jsvalue)
| BuiltIn.

(** ToBoolean of what a property read gave. *)
Definition member_truthy (m : member) : bool :=
  match m with
  | Value v => truthy v
  | BuiltIn => true
  end.

(** The names of the data properties of %Object.prototype% (ECMAScript,
    with Annex B); [__proto__], its one accessor, is treated apart. *)
Definition Object_prototype_names : list jsstring :=
  map js ["constructor"; "hasOwnProperty"; "isPrototypeOf"; "propertyIsEnumerable";
          "toLocaleString"; "toString"; "valueOf"; "__defineGetter__";
          "__defineSetter__"; "__lookupGetter__"; "__lookupSetter__"]%string.

(** The names of the methods of %Array.prototype% (ECMAScript 2023). *)
Definition Array_prototype_names : list jsstring :=
  map js ["at"; "concat"; "constructor"; "copyWithin"; "entries"; "every"; "fill";
          "filter"; "find"; "findIndex"; "findLast"; "findLastIndex"; "flat";
          "flatMap"; "forEach"; "includes"; "indexOf"; "join"; "keys";
          "lastIndexOf"; "map"; "pop"; "push"; "reduce"; "reduceRight"; "reverse";
          "shift"; "slice"; "some"; "sort"; "splice"; "toLocaleString";
          "toReversed"; "toSorted"; "toSpliced"; "toString"; "unshift"; "values";
          "with"]%string.

Definition in_list (s : jsstring) (l : list jsstring) : bool :=
  existsb (str_eqb s) l.

(** The array index a property name denotes: a canonical numeric string,
    that is 0 or decimal digits without a leading zero. *)
Definition array_index (key : jsstring) : option nat :=
  match key with
  | [] => None
  | c :: rest =>
      if forallb (fun d => (48 <=? d)%N && (d <=? 57)%N) key
         && (negb (N.eqb c 48) || match rest with [] => true | _ => false end)
      then Some (N.to_nat (fold_left (fun acc d => (10 * acc + (d - 48))%N) key 0%N))
      else None
  end.

(** A read that reaches %Object.prototype% on behalf of an object whose
    own prototype is [proto]: the [__proto__] getter returns that
    prototype, a method name gives the method, any other name nothing. *)
Definition inherited_from_Object (proto : prototype) (key : jsstring) : member :=
  if str_eqb key (js "__proto__") then
    match proto with
    | ObjectValue props => Value (VObj props)
    | ArrayValue items => Value (VArr items)
    | ObjectPrototype | NullPrototype => BuiltIn
    end
  else if in_list key Object_prototype_names then BuiltIn
  else Value VUndefined.

(** [elements[key]] on an elements object with own properties [els] and
    prototype [proto]: the own property when there is one, else what the
    prototype chain gives. An object value has its members as own
    properties, an array value its items and [length], and their chains
    continue with %Object.prototype%, for the array after
    %Array.prototype%. *)
Definition lookup_element (els : gmap jsstring jsvalue) (proto : prototype)
    (key : jsstring) : member :=
  match els !! key with
  | Some v => Value v
  | None =>
      match proto with
      | NullPrototype => Value VUndefined
      | ObjectPrototype => inherited_from_Object proto key
      | ObjectValue props =>
          match assoc_last key props with
          | Some v => Value v
          | None => inherited_from_Object proto key
          end
      | ArrayValue items =>
          match array_index key with
          | Some i => Value (default VUndefined (items !! i))
          | None =>
              if str_eqb key (js "length") then Value (VNum (of_Z (Z.of_nat (length items))))
              else if in_list key Array_prototype_names then BuiltIn
              else inherited_from_Object proto key
          end
      end
  end.

(** [obj[key] = v] on an object that an object literal has just created,
    so that its prototype is %Object.prototype%: the own properties and
    the prototype afterwards. An assignment to [__proto__] on an object
    without such an own property runs the inherited setter, which creates
    no property and replaces the prototype when [v] is an object, an array
    or null; every other assignment creates or overwrites an own
    property. *)
Definition assign (els : gmap jsstring jsvalue) (key : jsstring) (v : jsvalue)
  : gmap jsstring jsvalue * prototype :=
  if str_eqb key (js "__proto__")
     && match els !! key with Some _ => false | None => true end
  then (els,
        match v with
        | VObj props => ObjectValue props
        | VArr items => ArrayValue items
        | VNull => NullPrototype
        | _ => ObjectPrototype
        end)
  else (<[key := v]> els, ObjectPrototype).

(** A patch as [applyPatch] reads it: the three properties it accesses.
    Its declared type has [op] and [path] strings; [mkPatch] builds such a
    patch. *)
Record Patch := {
  op : jsvalue;
  path : jsvalue;
  value : jsvalue
}.

Definition mkPatch (o p : jsstring) (v : jsvalue) : Patch :=
  {| op := VStr o; path := VStr p; value := v |}.

(** [patch.path.startsWith(prefix)]: a TypeError unless [path] is a
    string. *)
Definition path_startsWith (p : jsvalue) (prefix : jsstring) : result bool :=
  match p with
  | VStr s => Ok (startsWith s prefix)
  | _ => Throw TypeError
  end.

(** [patch.path.slice(n).split("/")[0]] on a string path. *)
Definition path_key (p : jsvalue) (n : nat) : jsstring :=
  match p with
  | VStr s => hd [] (split 47%N (slice n s))
  | _ => []
  end.

(** [applyPatch]: the tree it returns, with the prototype of the elements
    object of that tree. [newTree] is a copy of the tree whose elements
    object is a fresh copy of the own properties of [tree.elements]. *)
Definition applyPatch_object (tree : UITree) (patch : Patch) : result (UITree * prototype) :=
  let newTree := {| root := root tree; elements := elements tree |} in
  if is_str (path patch) (js "/root") then
    Ok ({| root := value patch; elements := elements newTree |}, ObjectPrototype)
  else
    b <- path_startsWith (path patch) (js "/elements/") ;;
    if b then
      let key := path_key (path patch) (length (js "/elements/")) in
      if truthy (VStr key)
         && (is_str (op patch) (js "set") || is_str (op patch) (js "add"))
      then
        let '(els, proto) := assign (elements newTree) key (value patch) in
        Ok ({| root := root newTree; elements := els |}, proto)
      else Ok (newTree, ObjectPrototype)
    else Ok (newTree, ObjectPrototype).

(** The tree [applyPatch] returns, as data. *)
Definition applyPatch (tree : UITree) (patch : Patch) : result UITree :=
  o <- applyPatch_object tree patch ;; Ok (fst o).

(** ** JSON.parse *)

Module JSON.

Local Open Scope N_scope.

(** The outcome of a parsing function: a value and the unread text, a
    syntax error, or recursion budget exhausted (which [parse] rules out by
    the budget it passes, see [parse_within_budget]). *)
Inductive presult (A : Type) :=
| Parsed (a : A) (rest : jsstring)
| SyntaxError
| OutOfFuel.
Arguments Parsed {A} a rest.
Arguments SyntaxError {A}.
Arguments OutOfFuel {A}.

Definition pbind {A B} (r : presult A) (k : A -> jsstring -> presult B) : presult B :=
  match r with
  | Parsed a rest => k a rest
  | SyntaxError => SyntaxError
  | OutOfFuel => OutOfFuel
  end.

(** JSON white space: tab, line feed, carriage return, space. *)
Definition is_ws (c : N) : bool :=
  (c =? 9) || (c =? 10) || (c =? 13) || (c =? 32).

Fixpoint skip_ws (s : jsstring) : jsstring :=
  match s with
  | c :: s' => if is_ws c then skip_ws s' else s
  | [] => []
  end.

Definition is_digit (c : N) : bool := (48 <=? c) && (c <=? 57).

Definition hex_digit (c : N) : option N :=
  if (48 <=? c) && (c <=? 57) then Some (c - 48)
  else if (65 <=? c) && (c <=? 70) then Some (c - 55)
  else if (97 <=? c) && (c <=? 102) then Some (c - 87)
  else None.

(** The code unit a single-character escape stands for. *)
Definition escape_char (c : N) : option N :=
  if c =? 34 then Some 34          (* quotation mark *)
  else if c =? 92 then Some 92     (* reverse solidus *)
  else if c =? 47 then Some 47     (* solidus *)
  else if c =? 98 then Some 8      (* b: backspace *)
  else if c =? 102 then Some 12    (* f: form feed *)
  else if c =? 110 then Some 10    (* n: line feed *)
  else if c =? 114 then Some 13    (* r: carriage return *)
  else if c =? 116 then Some 9     (* t: tab *)
  else None.

(** The characters of a string after its opening quote, up to and
    including the closing quote. *)
Fixpoint parse_string_body (s : jsstring) : presult jsstring :=
  match s with
  | [] => SyntaxError
  | c :: r =>
      if c =? 34 then Parsed [] r
      else if c =? 92 then
        match r with
        | [] => SyntaxError
        | e :: r1 =>
            if e =? 117 then
              match r1 with
              | h1 :: h2 :: h3 :: h4 :: r2 =>
                  match hex_digit h1, hex_digit h2, hex_digit h3, hex_digit h4 with
                  | Some a, Some b, Some c', Some d =>
                      pbind (parse_string_body r2) (fun str rest =>
                        Parsed ((a * 4096 + b * 256 + c' * 16 + d) :: str) rest)
                  | _, _, _, _ => SyntaxError
                  end
              | _ => SyntaxError
              end
            else
              match escape_char e with
              | Some x =>
                  pbind (parse_string_body r1) (fun str rest => Parsed (x :: str) rest)
              | None => SyntaxError
              end
        end
      else if c <? 32 then SyntaxError
      else pbind (parse_string_body r) (fun str rest => Parsed (c :: str) rest)
  end.

(** The longest prefix of decimal digits, as digit values, and the rest. *)
Fixpoint take_digits (s : jsstring) : list N * jsstring :=
  match s with
  | c :: s' =>
      if is_digit c then let '(ds, rest) := take_digits s' in ((c - 48) :: ds, rest)
      else ([], s)
  | [] => ([], [])
  end.

Definition digits_value (ds : list N) : Z :=
  fold_left (fun acc d => (10 * acc + Z.of_N d)%Z) ds 0%Z.

(** The text after the code unit [c], when [s] begins with it. *)
Definition expect (c : N) (s : jsstring) : option jsstring :=
  match s with
  | x :: rest => if x =? c then Some rest else None
  | [] => None
  end.

(** One or more decimal digits. *)
Definition parse_digits (s : jsstring) : option (list N * jsstring) :=
  match take_digits s with
  | ([], _) => None
  | (ds, rest) => Some (ds, rest)
  end.

(** The integer part of a number: a single 0, or digits that begin with
    a nonzero digit. *)
Definition parse_int (s : jsstring) : option (list N * jsstring) :=
  match expect 48 s with
  | Some r => Some ([0], r)
  | None => parse_digits s
  end.

(** The optional fraction: a point and one or more digits. *)
Definition parse_frac (s : jsstring) : option (list N * jsstring) :=
  match expect 46 s with
  | Some r => parse_digits r
  | None => Some ([], s)
  end.

(** An optional sign: whether it is a minus, and the text after it. *)
Definition parse_sign (plus : bool) (s : jsstring) : bool * jsstring :=
  match expect 45 s with
  | Some r => (true, r)
  | None =>
      match (if plus then expect 43 s else None) with
      | Some r => (false, r)
      | None => (false, s)
      end
  end.

(** The optional exponent: e or E, an optional sign, one or more digits. *)
Definition parse_exp (s : jsstring) : option (Z * jsstring) :=
  match s with
  | c :: r =>
      if (c =? 101) || (c =? 69) then
        let '(eneg, r1) := parse_sign true r in
        match parse_digits r1 with
        | Some (ds, r2) => Some (if eneg then (- digits_value ds)%Z else digits_value ds, r2)
        | None => None
        end
      else Some (0%Z, s)
  | [] => Some (0%Z, s)
  end.

(** A JSON number: an optional minus sign, the integer part, the optional
    fraction and the optional exponent; its value is the decimal rounded
    to binary64. *)
Definition parse_number (s : jsstring) : presult number :=
  let '(neg, s1) := parse_sign false s in
  match parse_int s1 with
  | None => SyntaxError
  | Some (ints, s2) =>
      match parse_frac s2 with
      | None => SyntaxError
      | Some (fracs, s3) =>
          match parse_exp s3 with
          | None => SyntaxError
          | Some (e, s4) =>
              Parsed (of_decimal neg (digits_value (ints ++ fracs))
                                 (e - Z.of_nat (length fracs))%Z) s4
          end
      end
  end.

Fixpoint parse_value (fuel : nat) (s : jsstring) : presult jsvalue :=
  match fuel with
  | O => OutOfFuel
  | S fuel' =>
      match skip_ws s with
      | [] => SyntaxError
      | c :: r =>
          if c =? 123 then
            match expect 125 (skip_ws r) with
            | Some r' => Parsed (VObj []) r'
            | None => pbind (parse_members fuel' r) (fun ms rest => Parsed (VObj ms) rest)
            end
          else if c =? 91 then
            match expect 93 (skip_ws r) with
            | Some r' => Parsed (VArr []) r'
            | None => pbind (parse_elements fuel' r) (fun vs rest => Parsed (VArr vs) rest)
            end
          else if c =? 34 then
            pbind (parse_string_body r) (fun str rest => Parsed (VStr str) rest)
          else if startsWith (c :: r) (js "true") then Parsed (VBool true) (drop 4 (c :: r))
          else if startsWith (c :: r) (js "false") then Parsed (VBool false) (drop 5 (c :: r))
          else if startsWith (c :: r) (js "null") then Parsed VNull (drop 4 (c :: r))
          else if (c =? 45) || is_digit c then
            pbind (parse_number (c :: r)) (fun n rest => Parsed (VNum n) rest)
          else SyntaxError
      end
  end
with parse_elements (fuel : nat) (s : jsstring) : presult (list jsvalue) :=
  match fuel with
  | O => OutOfFuel
  | S fuel' =>
      pbind (parse_value fuel' s) (fun v r =>
        match skip_ws r with
        | c :: r' =>
            if c =? 44 then
              pbind (parse_elements fuel' r') (fun vs rest => Parsed (v :: vs) rest)
            else if c =? 93 then Parsed [v] r'
            else SyntaxError
        | [] => SyntaxError
        end)
  end
with parse_members (fuel : nat) (s : jsstring) : presult (list (jsstring * jsvalue)) :=
  match fuel with
  | O => OutOfFuel
  | S fuel' =>
      match expect 34 (skip_ws s) with
      | Some r =>
          pbind (parse_string_body r) (fun k r1 =>
            match expect 58 (skip_ws r1) with
            | Some r2 =>
                pbind (parse_value fuel' r2) (fun v r3 =>
                  match skip_ws r3 with
                  | c :: r4 =>
                      if c =? 44 then
                        pbind (parse_members fuel' r4) (fun ms rest =>
                          Parsed ((k, v) :: ms) rest)
                      else if c =? 125 then Parsed [(k, v)] r4
                      else SyntaxError
                  | [] => SyntaxError
                  end)
            | None => SyntaxError
            end)
      | None => SyntaxError
      end
  end.

(** [JSON.parse(text)]: [None] when it throws a SyntaxError. *)
Definition parse (text : jsstring) : option jsvalue :=
  match parse_value (S (2 * length text)) text with
  | Parsed v rest =>
      match skip_ws rest with
      | [] => Some v
      | _ => None
      end
  | _ => None
  end.

End JSON.

(** ** parsePatch *)

Definition parsePatch (line : jsstring) : jsvalue :=
  let trimmed := trim line in
  if negb (truthy (VStr trimmed)) || startsWith trimmed (js "//") then VNull
  else match JSON.parse trimmed with
       | Some v => v
       | None => VNull
       end.

(** The patch [applyPatch] sees when it is handed the value [v] that
    [parsePatch] returned: its [op], [path] and [value] properties. *)
Definition as_patch (v : jsvalue) : Patch :=
  {| op := get v (js "op"); path := get v (js "path"); value := get v (js "value") |}.

(** ** TextDecoder *)

Module TextDecoder.

Local Open Scope N_scope.

(** The state of a UTF-8 [TextDecoder] between [decode] calls made with
    [stream: true]: the decoder's variables and the BOM-seen flag. *)
Record decoder := mkDecoder {
  code_point : N;
  bytes_seen : N;
  bytes_needed : N;
  lower : N;
  upper : N;
  bom_seen : bool
}.

Definition init : decoder := mkDecoder 0 0 0 128 191 false.

Definition reset (d : decoder) : decoder := mkDecoder 0 0 0 128 191 (bom_seen d).

(** The handler on a byte when no sequence is in progress. *)
Definition lead (d : decoder) (b : N) : decoder * list N :=
  if b <=? 127 then (d, [b])
  else if (194 <=? b) && (b <=? 223) then
    (mkDecoder (N.land b 31) 0 1 128 191 (bom_seen d), [])
  else if (224 <=? b) && (b <=? 239) then
    (mkDecoder (N.land b 15) 0 2
       (if b =? 224 then 160 else 128) (if b =? 237 then 159 else 191)
       (bom_seen d), [])
  else if (240 <=? b) && (b <=? 244) then
    (mkDecoder (N.land b 7) 0 3
       (if b =? 240 then 144 else 128) (if b =? 244 then 143 else 191)
       (bom_seen d), [])
  else (d, [65533]).

(** The UTF-8 decoder's handler on one byte, errors replaced by U+FFFD:
    the new state and the scalar values emitted. *)
Definition handler (d : decoder) (b : N) : decoder * list N :=
  if bytes_needed d =? 0 then lead d b
  else if negb ((lower d <=? b) && (b <=? upper d)) then
    let '(d', out) := lead (reset d) b in (d', 65533 :: out)
  else
    let cp := N.lor (N.shiftl (code_point d) 6) (N.land b 63) in
    let seen := bytes_seen d + 1 in
    if seen =? bytes_needed d then (reset d, [cp])
    else (mkDecoder cp seen (bytes_needed d) 128 191 (bom_seen d), []).

(** A scalar value as UTF-16 code units. *)
Definition utf16 (cp : N) : jsstring :=
  if cp <? 65536 then [cp]
  else let c := cp - 65536 in [55296 + N.shiftr c 10; 56320 + N.land c 1023].

(** Serialising the emitted scalar values: a U+FEFF that comes first in
    the stream is dropped. *)
Fixpoint serialize (seen : bool) (cps : list N) : bool * jsstring :=
  match cps with
  | [] => (seen, [])
  | cp :: cps' =>
      let '(seen', out) := serialize true cps' in
      (seen', if negb seen && (cp =? 65279) then out else utf16 cp ++ out)
  end.

Definition decode_byte (d : decoder) (b : Byte.byte) : decoder * jsstring :=
  let '(d', cps) := handler d (Byte.to_N b) in
  let '(seen, out) := serialize (bom_seen d') cps in
  (mkDecoder (code_point d') (bytes_seen d') (bytes_needed d') (lower d') (upper d') seen,
   out).

(** [decoder.decode(chunk, { stream: true })]. *)
Fixpoint decode (d : decoder) (chunk : list Byte.byte) : decoder * jsstring :=
  match chunk with
  | [] => (d, [])
  | b :: chunk' =>
      let '(d1, out1) := decode_byte d b in
      let '(d2, out2) := decode d1 chunk' in
      (d2, out1 ++ out2)
  end.

End TextDecoder.

(** ** The reader loop of handleSubmit *)

(** The local variables of the loop ([decoder], [buffer], [currentTree])
    and the component state it writes ([tree], [streamLines]).
    [elementsProto] is the prototype of the elements object of [tree]:
    [setTree({ ...currentTree })] copies the tree object and shares its
    elements object. *)
Record LoopState := mkLoop {
  decoder : TextDecoder.decoder;
  buffer : jsstring;
  currentTree : UITree;
  tree : UITree;
  streamLines : list jsstring;
  elementsProto : prototype
}.

Definition emptyTree : UITree := {| root := VStr []; elements := ∅ |}.

(** The state when the loop is entered: after [setStreamLines([])] and
    [setTree] with the empty tree. *)
Definition loop_init : LoopState :=
  mkLoop TextDecoder.init [] emptyTree emptyTree [] ObjectPrototype.

(** The body run for one line: parse it and, when the result is truthy,
    apply it and publish the tree and the trimmed line. An exception
    leaves the state as it was. *)
Definition process_line (st : LoopState) (line : jsstring) : result LoopState :=
  let patch := parsePatch line in
  if truthy patch then
    o <- applyPatch_object (currentTree st) (as_patch patch) ;;
    Ok (mkLoop (decoder st) (buffer st) (fst o) (fst o) (streamLines st ++ [trim line])
          (snd o))
  else Ok st.

(** [for (const line of lines)]: the state reached and the exception that
    ended the loop, if any. *)
Fixpoint process_lines (st : LoopState) (lines : list jsstring) : LoopState * option exn :=
  match lines with
  | [] => (st, None)
  | line :: lines' =>
      match process_line st line with
      | Ok st' => process_lines st' lines'
      | Throw e => (st, Some e)
      end
  end.

(** One iteration of the [while] loop on a chunk that was read. *)
Definition read_chunk (st : LoopState) (chunk : list Byte.byte) : LoopState * option exn :=
  let '(d, text) := TextDecoder.decode (decoder st) chunk in
  let buffer1 := buffer st ++ text in
  let lines := split 10%N buffer1 in
  let buffer2 := default [] (last lines) in
  let lines := removelast lines in
  process_lines
    (mkLoop d buffer2 (currentTree st) (tree st) (streamLines st) (elementsProto st)) lines.

(** The code after the loop: the trailing buffer is treated as a last
    line. *)
Definition flush (st : LoopState) : LoopState * option exn :=
  if truthy (VStr (trim (buffer st))) then
    match process_line st (buffer st) with
    | Ok st' => (st', None)
    | Throw e => (st, Some e)
    end
  else (st, None).

(** The [while (true)] loop over the chunks the reader delivers before it
    reports [done], followed by the flush. *)
Fixpoint read_loop (st : LoopState) (chunks : list (list Byte.byte)) : LoopState * option exn :=
  match chunks with
  | [] => flush st
  | chunk :: chunks' =>
      match read_chunk st chunk with
      | (st', None) => read_loop st' chunks'
      | (st', Some e) => (st', Some e)
      end
  end.

(** What is left when [handleSubmit] has read a response body: the
    [tree] and [streamLines] state, the exception its [catch] block
    logged, if any, and the prototype of the elements object of the tree
    state. *)
Record Outcome := mkOutcome {
  final_tree : UITree;
  final_streamLines : list jsstring;
  caught : option exn;
  final_elementsProto : prototype
}.

(** [handleSubmit] from the reader loop on, for a response whose reader
    delivers [chunks] and then reports [done]. *)
Definition handleSubmit (chunks : list (list Byte.byte)) : Outcome :=
  let '(st, e) := read_loop loop_init chunks in
  mkOutcome (tree st) (streamLines st) e (elementsProto st).

(** ** applyPatch on a store of objects *)

(** The same function with its objects made explicit: a tree object holds
    its root and a reference to its elements object, an elements object
    has its own properties and its prototype, and object literals with
    spread allocate and copy. Element records are immutable values. *)
Module Store.

Abbreviation loc := positive (only parsing).

Inductive cell :=
| TreeObj (root_ : jsvalue) (elements_ : loc)
| ElementsObj (members : gmap jsstring jsvalue) (proto : prototype).

Abbreviation store := (gmap positive cell) (only parsing).

Definition alloc (h : store) (c : cell) : store * loc :=
  let l := fresh (dom h) in (<[l := c]> h, l).

(** The tree value held at a reference, when it is a tree object whose
    [elements] is an elements object. *)
Definition read_tree (h : store) (l : loc) : option UITree :=
  match h !! l with
  | Some (TreeObj r e) =>
      match h !! e with
      | Some (ElementsObj m _) => Some {| root := r; elements := m |}
      | _ => None
      end
  | _ => None
  end.

(** [obj.root = v]. *)
Definition set_root (h : store) (l : loc) (v : jsvalue) : store :=
  match h !! l with
  | Some (TreeObj _ e) => <[l := TreeObj v e]> h
  | _ => h
  end.

(** [obj.elements[key] = v] on an elements object fresh from a literal. *)
Definition set_element (h : store) (l : loc) (key : jsstring) (v : jsvalue) : store :=
  match h !! l with
  | Some (TreeObj _ e) =>
      match h !! e with
      | Some (ElementsObj m _) =>
          let '(m', proto) := assign m key v in <[e := ElementsObj m' proto]> h
      | _ => h
      end
  | _ => h
  end.

Definition applyPatch (h : store) (tree : loc) (patch : Patch) : result (store * loc) :=
  match h !! tree with
  | Some (TreeObj r e) =>
      match h !! e with
      | Some (ElementsObj m _) =>
          (* newTree: a copy of the tree object whose elements is a copy of
             the own properties of the elements object *)
          let '(h1, newElements) := alloc h (ElementsObj m ObjectPrototype) in
          let '(h2, newTree) := alloc h1 (TreeObj r newElements) in
          if is_str (path patch) (js "/root") then
            Ok (set_root h2 newTree (value patch), newTree)
          else
            b <- path_startsWith (path patch) (js "/elements/") ;;
            if b then
              let key := path_key (path patch) (length (js "/elements/")) in
              if truthy (VStr key)
                 && (is_str (op patch) (js "set") || is_str (op patch) (js "add"))
              then Ok (set_element h2 newTree key (value patch), newTree)
              else Ok (h2, newTree)
            else Ok (h2, newTree)
      | _ => Throw TypeError
      end
  | _ => Throw TypeError
  end.

End Store.

(** ** The renderer *)

(** What [renderElement] returns: React elements with their [key],
    [className] and children; a value placed in braces is kept as it is. *)
Inductive node :=
| NNull
| NValue (v : jsvalue)
| NText (s : jsstring)
| NElement (tag : string) (key : jsvalue) (className : jsstring) (children : list node)
| NArray (items : list node).

(** The outcome of rendering with a bounded call depth: [None] when the
    bound is reached. *)
Definition rendering := option (result node).

Definition baseClass : jsstring :=
  js "animate-in fade-in slide-in-from-bottom-1 duration-200".

(** The case labels of the switch that build their markup from the
    element alone, without rendering children. *)
Definition leaf_kinds : list jsstring :=
  map js ["Divider"; "Input"; "Textarea"; "Select"; "Checkbox"; "Radio";
          "Switch"; "Button"; "Link"; "Heading"; "Text"; "Image"; "Avatar";
          "Badge"; "Alert"; "Progress"; "Rating"]%string.

(** The case labels that render their children. *)
Definition container_kinds : list jsstring :=
  map js ["Card"; "Stack"; "Grid"; "Form"]%string.

(** All 21 case labels of the switch. *)
Definition switch_labels : list jsstring := container_kinds ++ leaf_kinds.


(** [type] matches one of the labels in [l] under [===]. *)
Definition type_in (ty : jsvalue) (l : list jsstring) : bool :=
  match ty with
  | VStr s => in_list s l
  | _ => false
  end.

Section Render.

(** ToString on a value that is not a string, as the language applies it
    to a property key or to an array item in [join]. *)
Variable ToString : jsvalue -> result jsstring.

(** The markup of the kinds in [leaf_kinds], which depends on the element
    and on the component's own state only: it is kept abstract, and the
    properties below are about the code before the switch, the dispatch
    on the type tag, the kinds that render children and the default
    branch. *)
Variable renderLeaf : jsvalue -> result node.

(** The prototype of the elements object that is passed around. *)
Variable proto : prototype.

(** [obj[key]] on the elements object for a key of any type. *)
Definition element_at (els : gmap jsstring jsvalue) (key : jsvalue) : result member :=
  match key with
  | VStr s => Ok (lookup_element els proto s)
  | _ => s <- ToString key ;; Ok (lookup_element els proto s)
  end.

(** [renderElement(m, elements)] on what a property read gave, given the
    function that renders a value. A built-in has no [props], so the call
    throws where it reads [props.className]. *)
Definition render_member (render : jsvalue -> rendering) (m : member) : rendering :=
  match m with
  | Value v => render v
  | BuiltIn => Some (Throw TypeError)
  end.

(** The string [join] uses for an array item. *)
Definition join_item (v : jsvalue) : result jsstring :=
  match v with
  | VUndefined | VNull => Ok []
  | VStr s => Ok s
  | _ => ToString v
  end.

Fixpoint join_items (items : list jsvalue) : result (list jsstring) :=
  match items with
  | [] => Ok []
  | v :: items' =>
      s <- join_item v ;;
      l <- join_items items' ;;
      Ok (s :: l)
  end.

(** [props.x]: a TypeError when [props] is undefined or null. *)
Definition prop (props : jsvalue) (name : jsstring) : result jsvalue :=
  match props with
  | VUndefined | VNull => Throw TypeError
  | _ => Ok (get props name)
  end.

(** [customClass]: the items of [props.className] joined by a space when
    it is an array, the empty string otherwise. *)
Definition customClass_of (props : jsvalue) : result jsstring :=
  c <- prop props (js "className") ;;
  match c with
  | VArr items => l <- join_items items ;; Ok (join (js " ") l)
  | _ => Ok []
  end.

Definition sp : jsstring := js " ".

(** [cond ? <div className=cls>{v}</div> : null]. *)
Definition optional_div (cls : string) (v : jsvalue) : node :=
  if truthy v then NElement "div" VUndefined (js cls) [NValue v] else NNull.

Definition gap_class (props : jsvalue) : jsstring :=
  if is_str (get props (js "gap")) (js "lg") then js "gap-3"
  else if is_str (get props (js "gap")) (js "sm") then js "gap-1"
  else js "gap-2".

(** [childKeys.map(key => { const child = elements[key];
    return child ? renderElement(child, elements) : null })], given the
    function that renders a child. *)
Fixpoint map_keys (render : jsvalue -> rendering) (els : gmap jsstring jsvalue)
    (keys : list jsvalue) : option (result (list node)) :=
  match keys with
  | [] => Some (Ok [])
  | key :: keys' =>
      match element_at els key with
      | Throw e => Some (Throw e)
      | Ok child =>
          match (if member_truthy child then render_member render child
                 else Some (Ok NNull)) with
          | None => None
          | Some (Throw e) => Some (Throw e)
          | Some (Ok n) =>
              match map_keys render els keys' with
              | None => None
              | Some (Throw e) => Some (Throw e)
              | Some (Ok ns) => Some (Ok (n :: ns))
              end
          end
      end
  end.

(** [renderChildren()]: [childKeys.map] is a TypeError unless [childKeys]
    is an array. *)
Definition renderChildren_with (render : jsvalue -> rendering)
    (els : gmap jsstring jsvalue) (childKeys : jsvalue) : option (result (list node)) :=
  match childKeys with
  | VArr keys => map_keys render els keys
  | _ => Some (Throw TypeError)
  end.

(** [children: childKeys = []] in the destructuring of the element. *)
Definition childKeys_of (element : jsvalue) : jsvalue :=
  match get element (js "children") with
  | VUndefined => VArr []
  | c => c
  end.

Fixpoint renderElement (depth : nat) (element : jsvalue)
    (els : gmap jsstring jsvalue) {struct depth} : rendering :=
  match depth with
  | O => None
  | S depth' =>
      let type := get element (js "type") in
      let props := get element (js "props") in
      let childKeys := childKeys_of element in
      let renderChildren (_ : unit) :=
        renderChildren_with (fun child => renderElement depth' child els) els childKeys in
      let with_children (k : list node -> node) : rendering :=
        match renderChildren tt with
        | None => None
        | Some (Throw e) => Some (Throw e)
        | Some (Ok ns) => Some (Ok (k ns))
        end in
      match customClass_of props with
      | Throw e => Some (Throw e)
      | Ok customClass =>
          if is_str type (js "Card") then
            let maxWidthClass :=
              if is_str (get props (js "maxWidth")) (js "sm") then js "max-w-xs sm:min-w-[280px]"
              else if is_str (get props (js "maxWidth")) (js "md") then js "max-w-sm sm:min-w-[320px]"
              else if is_str (get props (js "maxWidth")) (js "lg") then js "max-w-md sm:min-w-[360px]"
              else js "w-full" in
            let centeredClass :=
              if truthy (get props (js "centered")) then js "mx-auto" else [] in
            with_children (fun ns =>
              NElement "div" (get element (js "key"))
                (js "border border-border rounded-lg p-3 bg-background overflow-hidden "
                   ++ maxWidthClass ++ sp ++ centeredClass ++ sp ++ baseClass ++ sp ++ customClass)
                [optional_div "font-semibold text-sm mb-1 text-left" (get props (js "title"));
                 optional_div "text-[10px] text-muted-foreground mb-2 text-left"
                   (get props (js "description"));
                 NElement "div" VUndefined (js "space-y-2") [NArray ns]])
          else if is_str type (js "Stack") then
            let isHorizontal := is_str (get props (js "direction")) (js "horizontal") in
            with_children (fun ns =>
              NElement "div" (get element (js "key"))
                (js "flex "
                   ++ (if isHorizontal then js "flex-row flex-wrap items-center" else js "flex-col")
                   ++ sp ++ gap_class props ++ sp ++ baseClass ++ sp ++ customClass)
                [NArray ns])
          else if is_str type (js "Grid") then
            let hasCustomCols := includes customClass (js "grid-cols-") in
            let cols :=
              if hasCustomCols then []
              else if is_num (get props (js "columns")) 4 then js "grid-cols-4"
              else if is_num (get props (js "columns")) 3 then js "grid-cols-3"
              else if is_num (get props (js "columns")) 2 then js "grid-cols-2"
              else js "grid-cols-1" in
            with_children (fun ns =>
              NElement "div" (get element (js "key"))
                (js "grid " ++ cols ++ sp ++ gap_class props ++ sp ++ baseClass ++ sp ++ customClass)
                [NArray ns])
          else if type_in type leaf_kinds then Some (renderLeaf element)
          else if is_str type (js "Form") then
            with_children (fun ns =>
              NElement "div" (get element (js "key"))
                (js "border border-border rounded-lg p-3 bg-background "
                   ++ baseClass ++ sp ++ customClass)
                [optional_div "font-semibold text-sm mb-2 text-left" (get props (js "title"));
                 NElement "div" VUndefined (js "space-y-2") [NArray ns]])
          else
            Some (Ok (NElement "div" (get element (js "key"))
                        (js "text-[10px] text-muted-foreground " ++ baseClass ++ sp ++ customClass)
                        [NText (js "["); NValue type; NText (js "]")]))
      end
  end.

(** The placeholder [renderPreview] shows when there is nothing to
    render. *)
Definition waiting (isLoading : bool) : node :=
  NElement "div" VUndefined
    (js "h-full flex items-center justify-center text-muted-foreground/50 text-sm")
    [NValue (VStr (if isLoading then js "generating..." else js "waiting..."))].

(** [renderPreview] on the tree it selected ([currentTree], [None] when
    it is null or undefined), whose elements object has the prototype
    [proto]. *)
Definition renderPreview (depth : nat) (currentTree : option UITree)
    (isLoading actionFired : bool) : rendering :=
  match currentTree with
  | None => Some (Ok (waiting isLoading))
  | Some t =>
      if negb (truthy (root t)) then Some (Ok (waiting isLoading))
      else
        match element_at (elements t) (root t) with
        | Throw e => Some (Throw e)
        | Ok root_element =>
            if negb (member_truthy root_element) then Some (Ok (waiting isLoading))
            else if negb (member_truthy root_element) then Some (Ok NNull)
            else
              match render_member (fun root => renderElement depth root (elements t))
                      root_element with
              | None => None
              | Some (Throw e) => Some (Throw e)
              | Some (Ok n) =>
                  Some (Ok (NElement "div" VUndefined
                    (js "animate-in fade-in duration-200 w-full flex flex-col items-center py-4")
                    [NElement "div" VUndefined (js "my-auto")
                       [n;
                        if actionFired then
                          NElement "div" VUndefined
                            (js "mt-3 text-xs font-mono text-muted-foreground text-center animate-in fade-in slide-in-from-bottom-2")
                            [NText (js "onAction()")]
                        else NValue (VBool false)]]))
              end
        end
  end.

End Render.

(** ** The scripted demo fixture *)

Definition str (s : string) : jsvalue := VStr (js s).
Definition obj (members : list (string * jsvalue)) : jsvalue :=
  VObj (map (fun kv => (js (fst kv), snd kv)) members).
Definition arr (items : list jsvalue) : jsvalue := VArr items.

Record SimulationStage := {
  stage_tree : UITree;
  stream : jsstring
}.

Definition card_element (children : list string) : jsvalue :=
  obj [("key", str "card"); ("type", str "Card");
       ("props", obj [("title", str "Contact Us"); ("maxWidth", str "md")]);
       ("children", arr (map str children))]%string.

Definition name_element : jsvalue :=
  obj [("key", str "name"); ("type", str "Input");
       ("props", obj [("label", str "Name"); ("name", str "name")])]%string.

Definition email_element : jsvalue :=
  obj [("key", str "email"); ("type", str "Input");
       ("props", obj [("label", str "Email"); ("name", str "email")])]%string.

Definition message_element : jsvalue :=
  obj [("key", str "message"); ("type", str "Textarea");
       ("props", obj [("label", str "Message"); ("name", str "message")])]%string.

Definition submit_element : jsvalue :=
  obj [("key", str "submit"); ("type", str "Button");
       ("props", obj [("label", str "Send Message"); ("variant", str "primary")])]%string.

Definition stage_elements (members : list (string * jsvalue)) : gmap jsstring jsvalue :=
  list_to_map (map (fun kv => (js (fst kv), snd kv)) members).

Definition SIMULATION_STAGES : list SimulationStage :=
  [ {| stage_tree := mkTree (str "card")
         (stage_elements [("card", card_element [])]%string);
       stream := jsq "{'op':'set','path':'/root','value':'card'}" |};
    {| stage_tree := mkTree (str "card")
         (stage_elements [("card", card_element ["name"]); ("name", name_element)]%string);
       stream := jsq "{'op':'add','path':'/elements/card','value':{'key':'card','type':'Card','props':{'title':'Contact Us','maxWidth':'md'},'children':['name']}}" |};
    {| stage_tree := mkTree (str "card")
         (stage_elements [("card", card_element ["name"; "email"]); ("name", name_element);
                          ("email", email_element)]%string);
       stream := jsq "{'op':'add','path':'/elements/email','value':{'key':'email','type':'Input','props':{'label':'Email','name':'email'}}}" |};
    {| stage_tree := mkTree (str "card")
         (stage_elements [("card", card_element ["name"; "email"; "message"]);
                          ("name", name_element); ("email", email_element);
                          ("message", message_element)]%string);
       stream := jsq "{'op':'add','path':'/elements/message','value':{'key':'message','type':'Textarea','props':{'label':'Message','name':'message'}}}" |};
    {| stage_tree := mkTree (str "card")
         (stage_elements [("card", card_element ["name"; "email"; "message"; "submit"]);
                          ("name", name_element); ("email", email_element);
                          ("message", message_element); ("submit", submit_element)]%string);
       stream := jsq "{'op':'add','path':'/elements/submit','value':{'key':'submit','type':'Button','props':{'label':'Send Message','variant':'primary'}}}" |} ].

(** Applying parsed patch lines in order with [applyPatch]; a line that
    [parsePatch] rejects is skipped, as the reader loop does. *)
Fixpoint apply_lines (t : UITree) (lines : list jsstring) : result UITree :=
  match lines with
  | [] => Ok t
  | line :: lines' =>
      let patch := parsePatch line in
      if truthy patch then
        t' <- applyPatch t (as_patch patch) ;; apply_lines t' lines'
      else apply_lines t lines'
  end.

(** [tree.elements[tree.root].children] of a tree with a string root
    whose elements object has the prototype %Object.prototype%. *)
Definition root_children (t : UITree) : jsvalue :=
  match root t with
  | VStr r =>
      match lookup_element (elements t) ObjectPrototype r with
      | Value element => get element (js "children")
      | BuiltIn => VUndefined
      end
  | _ => VUndefined
  end.

(** The tree [renderPreview] and the JSON tab show:
    [mode === "simulation" ? currentSimulationStage?.tree : tree]. *)
Inductive Mode := simulation | interactive.

Definition currentSimulationStage (stageIndex : Z) : option SimulationStage :=
  if 0 <=? stageIndex then SIMULATION_STAGES !! Z.to_nat stageIndex else None.

Definition currentTree_of (mode : Mode) (stageIndex : Z) (tree : option UITree)
  : option UITree :=
  match mode with
  | simulation => stage_tree <$> currentSimulationStage stageIndex
  | interactive => tree
  end.

(** The prototype of the elements object of that tree: the trees of the
    stages are object literals. *)
Definition currentProto_of (mode : Mode) (treeProto : prototype) : prototype :=
  match mode with
  | simulation => ObjectPrototype
  | interactive => treeProto
  end.

(** The bytes of a text of code units below 256. *)
Definition latin_bytes (s : jsstring) : list Byte.byte := omap Byte.of_N s.

(** The bytes of an ASCII text in which apostrophes stand for quotation
    marks. *)
Definition bytesq (s : string) : list Byte.byte :=
  map (fun b => if Byte.eqb b Byte.x27 then Byte.x22 else b) (list_byte_of_string s).

(** * The rest of the component and the route *)

(** ** The generation route *)

Definition MAX_PROMPT_LENGTH : nat := 140.

Section Route.

(** ToString on a value that is not a string. *)
Variable ToString : jsvalue -> result jsstring.

(** [String(v)]. *)
Definition String_of (v : jsvalue) : result jsstring :=
  match v with
  | VStr s => Ok s
  | _ => ToString v
  end.

(** [sanitizedPrompt]: [String] of the prompt, or of the empty string
    when the prompt is falsy, cut by [slice(0, MAX_PROMPT_LENGTH)]. *)
Definition sanitizedPrompt (prompt : jsvalue) : result jsstring :=
  s <- String_of (if truthy prompt then prompt else VStr []) ;;
  Ok (take MAX_PROMPT_LENGTH s).

(** The prompt [POST] passes on for a request whose JSON body is [body]:
    taking [prompt] out of null throws. *)
Definition POST_prompt (body : jsvalue) : result jsstring :=
  match body with
  | VUndefined | VNull => Throw TypeError
  | _ => sanitizedPrompt (get body (js "prompt"))
  end.

End Route.

(** ** The reader loop cut short *)

(** The [while] loop on the chunks read so far, without the code after
    it. *)
Fixpoint read_chunks (st : LoopState) (chunks : list (list Byte.byte)) : LoopState * option exn :=
  match chunks with
  | [] => (st, None)
  | chunk :: chunks' =>
      match read_chunk st chunk with
      | (st', None) => read_chunks st' chunks'
      | (st', Some e) => (st', Some e)
      end
  end.

(** ** The component state and its handlers *)

Inductive Phase := typing | streaming | complete.

Definition SIMULATION_PROMPT : jsstring :=
  js "Create a contact form with name, email, and message".

(** How a response to the fetch of [handleSubmit] goes: the fetch
    rejects (because the request was aborted, or for another reason), the
    status is not ok, there is no body, or the body delivers chunks and
    then ends or fails to be read (aborted or not). *)
Inductive read_end := ReadDone | ReadRejects (aborted : bool).

Inductive response :=
| FetchRejects (aborted : bool)
| NotOk
| NoBody
| Body (chunks : list (list Byte.byte)) (ending : read_end).

(** What the [catch] block sees: an error named AbortError, or any
    other. *)
Inductive caught_error := AbortError | OtherError.

Module Demo.

Local Abbreviation loop_tree := tree (only parsing).
Local Abbreviation loop_streamLines := streamLines (only parsing).

(** The state variables of the component that its handlers and effects
    read or write. [treeProto] is the prototype of the elements object of
    the tree in [tree] (%Object.prototype% while there is none). *)
Record State := mkState {
  mode : Mode;
  phase : Phase;
  typedPrompt : jsstring;
  userPrompt : jsstring;
  stageIndex : Z;
  streamLines : list jsstring;
  actionFired : bool;
  tree : option UITree;
  isLoading : bool;
  treeProto : prototype
}.

(** The initial values of the state variables. *)
Definition initial : State :=
  mkState simulation typing [] [] (-1) [] false None false ObjectPrototype.

Definition stopGeneration (st : State) : State :=
  let st1 :=
    match mode st with
    | simulation =>
        mkState interactive complete SIMULATION_PROMPT [] (stageIndex st)
          (streamLines st) (actionFired st) (tree st) (isLoading st) (treeProto st)
    | interactive => st
    end in
  mkState (mode st1) (phase st1) (typedPrompt st1) (userPrompt st1) (stageIndex st1)
    (streamLines st1) (actionFired st1) (tree st1) false (treeProto st1).

(** One call of the interval callback of the typing effect, whose counter
    is [i]: the new counter, the new state, and whether the callback
    cleared the interval (and scheduled [typing_timeout]). *)
Definition typing_tick (i : nat) (st : State) : nat * State * bool :=
  if (i <? length SIMULATION_PROMPT)%nat then
    (S i,
     mkState (mode st) (phase st) (take (i + 1) SIMULATION_PROMPT) (userPrompt st)
       (stageIndex st) (streamLines st) (actionFired st) (tree st) (isLoading st)
       (treeProto st),
     false)
  else (i, st, true).

(** The callback the typing effect schedules when it is done. *)
Definition typing_timeout (st : State) : State :=
  mkState (mode st) streaming (typedPrompt st) (userPrompt st) (stageIndex st)
    (streamLines st) (actionFired st) (tree st) (isLoading st) (treeProto st).

(** One call of the interval callback of the streaming effect. *)
Definition stream_tick (i : nat) (st : State) : nat * State * bool :=
  if (i <? length SIMULATION_STAGES)%nat then
    (S i,
     match SIMULATION_STAGES !! i with
     | Some stage =>
         mkState (mode st) (phase st) (typedPrompt st) (userPrompt st) (Z.of_nat i)
           (streamLines st ++ [stream stage]) (actionFired st) (Some (stage_tree stage))
           (isLoading st) ObjectPrototype
     | None => st
     end,
     false)
  else (i, st, true).

(** The callback the streaming effect schedules when it is done. *)
Definition stream_timeout (st : State) : State :=
  mkState interactive complete (typedPrompt st) [] (stageIndex st)
    (streamLines st) (actionFired st) (tree st) (isLoading st) (treeProto st).

(** [n] calls of an interval callback, from counter [i], until it clears
    the interval. *)
Fixpoint ticks (tick : nat -> State -> nat * State * bool) (n : nat) (i : nat) (st : State)
  : nat * State * bool :=
  match n with
  | O => (i, st, false)
  | S n' =>
      match tick i st with
      | (i', st', true) => (i', st', true)
      | (i', st', false) => ticks tick n' i' st'
      end
  end.

(** The tree the preview and the JSON tab show. *)
Definition currentTree (st : State) : option UITree :=
  currentTree_of (mode st) (stageIndex st) (tree st).

(** The prototype of the elements object of that tree. *)
Definition currentProto (st : State) : prototype :=
  currentProto_of (mode st) (treeProto st).

(** [handleSubmit] for a response that goes as [resp]: the state when its
    promise settles, and the error it logged, if any. *)
Definition handleSubmit_request (st : State) (resp : response) : State * option caught_error :=
  if negb (truthy (VStr (trim (userPrompt st)))) || isLoading st then (st, None)
  else
    let '(loop, err) :=
      match resp with
      | FetchRejects aborted =>
          (loop_init, Some (if aborted then AbortError else OtherError))
      | NotOk => (loop_init, Some OtherError)
      | NoBody => (loop_init, Some OtherError)
      | Body chunks ending =>
          match read_chunks loop_init chunks with
          | (loop, Some _) => (loop, Some OtherError)
          | (loop, None) =>
              match ending with
              | ReadRejects aborted =>
                  (loop, Some (if aborted then AbortError else OtherError))
              | ReadDone =>
                  match flush loop with
                  | (loop', Some _) => (loop', Some OtherError)
                  | (loop', None) => (loop', None)
                  end
              end
          end
      end in
    (mkState (mode st) (phase st) (typedPrompt st) (userPrompt st) (stageIndex st)
       (loop_streamLines loop) (actionFired st) (Some (loop_tree loop)) false
       (elementsProto loop),
     match err with
     | Some AbortError => None
     | other => other
     end).

End Demo.

(** * The vocabulary of the properties *)

(** The characters of a key: no solidus among them. *)
Definition no_solidus (k : jsstring) : bool := forallb (fun c => negb (N.eqb c 47)) k.

(** What may follow the key in a path: nothing, or a solidus and more. *)
Definition segment_end (rest : jsstring) : bool :=
  match rest with
  | [] => true
  | c :: _ => N.eqb c 47
  end.

Definition set_or_add (o : jsstring) : bool :=
  str_eqb o (js "set") || str_eqb o (js "add").

Definition valid_key (k : jsstring) : bool :=
  match k with
  | [] => false
  | _ => no_solidus k
  end.

(** The lines [parsePatch] turns down: empty after trimming, a comment,
    or text that [JSON.parse] rejects. *)
Definition rejected (line : jsstring) : bool :=
  let trimmed := trim line in
  match trimmed with
  | [] => true
  | _ => startsWith trimmed (js "//")
         || match JSON.parse trimmed with
            | None => true
            | Some _ => false
            end
  end.

Definition no_newline (s : jsstring) : bool := forallb (fun c => negb (N.eqb c 10)) s.

(** The part of the loop state that processing a line reads and writes. *)
Definition view (st : LoopState) : UITree * UITree * list jsstring * prototype :=
  (currentTree st, tree st, streamLines st, elementsProto st).

(** The state with the decoder and the buffer replaced. *)
Definition with_io (st : LoopState) (d : TextDecoder.decoder) (b : jsstring) : LoopState :=
  mkLoop d b (currentTree st) (tree st) (streamLines st) (elementsProto st).

(** Two outcomes of the loop agree: the same exception or none, and the
    same trees and stream lines. *)
Definition agree (r1 r2 : LoopState * option exn) : Prop :=
  snd r1 = snd r2 /\ view (fst r1) = view (fst r2).

(** What the loop does to a whole text at once: the complete lines, then
    the flush of the remainder. *)
Definition consume_text (st : LoopState) (d : TextDecoder.decoder) (text : jsstring)
  : LoopState * option exn :=
  let lines := split 10 (buffer st ++ text) in
  match process_lines st (removelast lines) with
  | (st', None) => flush (with_io st' d (default [] (last lines)))
  | (st', Some e) => (st', Some e)
  end.

Definition is_string (v : jsvalue) : bool :=
  match v with VStr _ => true | _ => false end.

Definition string_of (v : jsvalue) : jsstring :=
  match v with VStr s => s | _ => [] end.

(** Props as the element interface and the cast in [customClass] have
    them: an object whose [className], when it is an array, holds
    strings. *)
Definition well_typed_props (props : jsvalue) : bool :=
  match props with
  | VObj _ =>
      match get props (js "className") with
      | VArr items => forallb is_string items
      | _ => true
      end
  | _ => false
  end.

(** The custom class of well-typed props. *)
Definition className_strings (props : jsvalue) : jsstring :=
  match get props (js "className") with
  | VArr items => join (js " ") (map string_of items)
  | _ => []
  end.

(** The markup of the default branch of the switch, given the custom
    class. *)
Definition placeholder (element : jsvalue) (customClass : jsstring) : node :=
  NElement "div" (get element (js "key"))
    (js "text-[10px] text-muted-foreground " ++ baseClass ++ sp ++ customClass)
    [NText (js "["); NValue (get element (js "type")); NText (js "]")].

(** [n] occurs in [m]: it is [m] or occurs in one of its children. *)
Inductive inside (n : node) : node -> Prop :=
| inside_here : inside n n
| inside_child tag key cls children c :
    In c children -> inside n c -> inside n (NElement tag key cls children).


(** The markup [wrap] around rendered children, exceptions passed on. *)
Definition wrap_children (wrap : list node -> node) (r : option (result (list node)))
  : rendering :=
  match r with
  | Some (Ok ns) => Some (Ok (wrap ns))
  | Some (Throw e) => Some (Throw e)
  | None => None
  end.

(** A line the loop has kept: already trimmed, not empty, not a comment,
    and JSON text of a truthy value whose [path] is a string. *)
Definition kept_line (l : jsstring) : Prop :=
  trim l = l /\ l <> [] /\ startsWith l (js "//") = false /\
  exists v, JSON.parse l = Some v /\ truthy v = true /\ is_string (get v (js "path")) = true.

(** What the loop keeps true of its state: the published tree is the
    current tree, the stream lines are kept lines, and the current tree is
    what they build from the empty tree. *)
Definition loop_invariant (st : LoopState) : Prop :=
  tree st = currentTree st /\
  Forall kept_line (streamLines st) /\
  apply_lines emptyTree (streamLines st) = Ok (currentTree st).

(** A stand-in for ToString that always throws, and one for the kinds
    without children that shows the element's key, to run the renderer on
    concrete trees. *)
Definition sample_ToString : jsvalue -> result jsstring := fun _ => Throw TypeError.
Definition sample_leaf : jsvalue -> result node := fun e => Ok (NValue (get e (js "key"))).

Definition final_stage_elements : gmap jsstring jsvalue :=
  stage_elements [("card", card_element ["name"; "email"; "message"; "submit"]);
                  ("name", name_element); ("email", email_element);
                  ("message", message_element); ("submit", submit_element)]%string.

(** The state with the typed prompt replaced. *)
Definition with_typedPrompt (st : Demo.State) (p : jsstring) : Demo.State :=
  Demo.mkState (Demo.mode st) (Demo.phase st) p (Demo.userPrompt st) (Demo.stageIndex st)
    (Demo.streamLines st) (Demo.actionFired st) (Demo.tree st) (Demo.isLoading st)
    (Demo.treeProto st).

(** The state after the stages up to index [i] have been revealed on top
    of the stream lines of [st]. *)
Definition with_stages (st : Demo.State) (n : nat) : Demo.State :=
  match n with
  | O => st
  | S i =>
      Demo.mkState (Demo.mode st) (Demo.phase st) (Demo.typedPrompt st) (Demo.userPrompt st)
        (Z.of_nat i) (Demo.streamLines st ++ map stream (take n SIMULATION_STAGES))
        (Demo.actionFired st) (stage_tree <$> SIMULATION_STAGES !! i) (Demo.isLoading st)
        ObjectPrototype
  end.

(** The tree state is the tree of the stage the index points at (none
    before the first stage), an object literal of the fixture. *)
Definition synced (st : Demo.State) : Prop :=
  Demo.tree st = stage_tree <$> currentSimulationStage (Demo.stageIndex st)
  /\ Demo.treeProto st = ObjectPrototype.

(** * Properties *)

(** ** The definitions on concrete inputs *)

Example trim_spaces : trim (js "   {} ") = js "{}".
Proof. reflexivity. Qed.

Example split_lines :
  split 10 (js "a" ++ [10%N] ++ js "bc" ++ [10%N]) = [js "a"; js "bc"; []].
Proof. reflexivity. Qed.

Example parse_number_rounds :
  JSON.parse (js "0.1") = Some (VNum (Finite false 7205759403792794 (-56)))
  /\ JSON.parse (js "4.0000000000000001") = JSON.parse (js "4")
  /\ JSON.parse (js "1e-400") = Some (VNum (Finite false 0 (-1074)))
  /\ JSON.parse (js "1e400") = Some (VNum (Infinity false)).
Proof. repeat split; by vm_compute. Qed.

Example parsePatch_line :
  parsePatch (jsq "  {'op':'set','path':'/root','value':'card'} ")
  = obj [("op", str "set"); ("path", str "/root"); ("value", str "card")]%string.
Proof. by vm_compute. Qed.

Example parsePatch_comment : parsePatch (js "  // not a patch") = VNull.
Proof. reflexivity. Qed.

Example parsePatch_truncated : parsePatch (jsq "{'op':'set','path':") = VNull.
Proof. reflexivity. Qed.

Example applyPatch_first_segment :
  applyPatch emptyTree (mkPatch (js "add") (js "/elements/a/b/c") VNull)
  = Ok {| root := VStr []; elements := <[js "a" := VNull]> ∅ |}.
Proof. reflexivity. Qed.

(** Reads through the prototype chain: an array as prototype gives its
    items, its length and the array methods; an object gives its members
    before what %Object.prototype% provides; without a prototype nothing
    is inherited. *)
Example lookup_element_chain :
  let items := ArrayValue [str "a"; str "b"] in
  lookup_element ∅ items (js "1") = Value (str "b") /\
  lookup_element ∅ items (js "2") = Value VUndefined /\
  lookup_element ∅ items (js "01") = Value VUndefined /\
  lookup_element ∅ items (js "length") = Value (VNum (of_Z 2)) /\
  lookup_element ∅ items (js "map") = BuiltIn /\
  lookup_element ∅ items (js "__proto__") = Value (arr [str "a"; str "b"]) /\
  lookup_element ∅ (ObjectValue [(js "constructor", str "c")]) (js "constructor")
  = Value (str "c") /\
  lookup_element ∅ (ObjectValue [(js "constructor", str "c")]) (js "valueOf") = BuiltIn /\
  lookup_element ∅ NullPrototype (js "constructor") = Value VUndefined /\
  lookup_element ∅ ObjectPrototype (js "constructor") = BuiltIn /\
  lookup_element (<[js "constructor" := str "own"]> ∅) ObjectPrototype (js "constructor")
  = Value (str "own") /\
  lookup_element ∅ ObjectPrototype (js "card") = Value VUndefined.
Proof. repeat split; by vm_compute. Qed.

(** A number is a truthy value without a path: applying it throws, and
    the lines after it are not read. *)
Example handleSubmit_aborts_on_number :
  handleSubmit [bytesq "{'op':'set','path':'/root','value':'a'}
7
{'op':'set','path':'/root','value':'b'}"]
  = {| final_tree := {| root := str "a"; elements := ∅ |};
       final_streamLines := [jsq "{'op':'set','path':'/root','value':'a'}"];
       caught := Some TypeError;
       final_elementsProto := ObjectPrototype |}.
Proof. by vm_compute. Qed.

(** The three bytes of a euro sign split over two chunks decode to one
    code unit. *)
Example decode_split_character :
  let '(d1, out1) := TextDecoder.decode TextDecoder.init [Byte.xe2; Byte.x82] in
  let '(d2, out2) := TextDecoder.decode d1 [Byte.xac] in
  out1 = [] /\ out2 = [8364%N].
Proof. by vm_compute. Qed.

(** ** Strings *)

Lemma str_eqb_eq (a b : jsstring) : str_eqb a b = true <-> a = b.
Proof.
  revert b. induction a as [|x a IH]; intros [|y b]; simpl; split; try done.
  - intros [Hx Hab]%andb_prop. apply N.eqb_eq in Hx. apply IH in Hab. congruence.
  - intros Heq. injection Heq as -> ->. rewrite N.eqb_refl. simpl. by apply IH.
Qed.

Lemma str_eqb_refl (a : jsstring) : str_eqb a a = true.
Proof. by apply str_eqb_eq. Qed.

Lemma startsWith_app (p s : jsstring) : startsWith (p ++ s) p = true.
Proof. induction p as [|c p IH]; simpl; [done | by rewrite N.eqb_refl]. Qed.

Lemma split_nonempty (sep : N) (s : jsstring) : split sep s <> [].
Proof.
  destruct s as [|c s]; simpl; [done|].
  destruct (N.eqb c sep); [done|]. by destruct (split sep s).
Qed.

Lemma split_first_segment (k rest : jsstring) :
  no_solidus k = true -> segment_end rest = true ->
  hd [] (split 47 (k ++ rest)) = k.
Proof.
  intros Hk Hr. induction k as [|c k IH]; simpl in *.
  - destruct rest as [|c rest]; simpl in *; [done|]. by rewrite Hr.
  - apply andb_prop in Hk as [Hc Hk]. apply negb_true_iff in Hc. rewrite Hc.
    specialize (IH Hk). pose proof (split_nonempty 47 (k ++ rest)) as Hne.
    destruct (split 47 (k ++ rest)) as [|h t]; [done|]. simpl in *. by rewrite IH.
Qed.

(** ** applyPatch *)

Lemma tree_eta (t : UITree) : {| root := root t; elements := elements t |} = t.
Proof. by destruct t. Qed.

Lemma not_root_path (s : jsstring) : str_eqb (js "/elements/" ++ s) (js "/root") = false.
Proof. reflexivity. Qed.

(** The tree as data is the first component of what [applyPatch_object]
    returns, and both throw together. *)
Lemma applyPatch_data (t : UITree) (patch : Patch) :
  applyPatch t patch
  = match applyPatch_object t patch with
    | Ok o => Ok (fst o)
    | Throw e => Throw e
    end.
Proof. reflexivity. Qed.

(** An assignment under a key other than [__proto__], or under a key
    that is an own property already, writes the own property and leaves
    the prototype alone. *)
Lemma assign_own (els : gmap jsstring jsvalue) (key : jsstring) (v : jsvalue) :
  str_eqb key (js "__proto__") = false \/ is_Some (els !! key) ->
  assign els key v = (<[key := v]> els, ObjectPrototype).
Proof.
  unfold assign. intros [-> | [w ->]]; [done|]. by rewrite andb_false_r.
Qed.

(** An assignment to [__proto__] on an object without such an own
    property creates no property. *)
Lemma assign_proto (els : gmap jsstring jsvalue) (v : jsvalue) :
  els !! js "__proto__" = None -> fst (assign els (js "__proto__") v) = els.
Proof. unfold assign. by intros ->. Qed.

(** A patch on an [/elements/] path: the first segment after the prefix
    is the key, written to with a set or add when it is not empty. *)
Lemma applyPatch_object_elements_path (t : UITree) (o k rest : jsstring) (v : jsvalue) :
  no_solidus k = true -> segment_end rest = true ->
  applyPatch_object t (mkPatch o (js "/elements/" ++ k ++ rest) v)
  = if truthy (VStr k) && set_or_add o
    then Ok ({| root := root t; elements := fst (assign (elements t) k v) |},
             snd (assign (elements t) k v))
    else Ok (t, ObjectPrototype).
Proof.
  intros Hk Hr. unfold applyPatch_object, mkPatch. cbn [path op value is_str].
  rewrite not_root_path. cbn [path_startsWith bind]. rewrite startsWith_app.
  unfold path_key, slice. rewrite drop_app_length.
  rewrite (split_first_segment k rest Hk Hr). unfold set_or_add. cbn [root elements].
  destruct (truthy (VStr k) && _); [by destruct (assign _ _ _) | by rewrite tree_eta].
Qed.

(** A set or add patch on [/elements/k...], for a key other than
    [__proto__], stores its value under [k]. *)
Lemma applyPatch_element (t : UITree) (o k rest : jsstring) (v : jsvalue) :
  valid_key k = true -> str_eqb k (js "__proto__") = false ->
  segment_end rest = true -> set_or_add o = true ->
  applyPatch_object t (mkPatch o (js "/elements/" ++ k ++ rest) v)
  = Ok ({| root := root t; elements := <[k := v]> (elements t) |}, ObjectPrototype).
Proof.
  intros Hk Hp Hr Ho.
  assert (Hns : no_solidus k = true) by (destruct k; [done | exact Hk]).
  rewrite (applyPatch_object_elements_path t o k rest v Hns Hr).
  assert (Ht : truthy (VStr k) = true) by (destruct k; [done | reflexivity]).
  rewrite Ht, Ho. cbn [andb]. by rewrite assign_own by (by left).
Qed.

(** X26. Last write wins under every key other than [__proto__]: two set
    or add patches on [/elements/k], applied one after the other, leave at
    [k] exactly the value of the second, as an own property that a read
    returns, and nothing of the first value is kept. *)
Theorem applyPatch_last_write_wins
    (t : UITree) (k o1 o2 rest1 rest2 : jsstring) (v1 v2 : jsvalue) :
  valid_key k = true -> str_eqb k (js "__proto__") = false ->
  segment_end rest1 = true -> segment_end rest2 = true ->
  set_or_add o1 = true -> set_or_add o2 = true ->
  exists t1 t2,
    applyPatch_object t (mkPatch o1 (js "/elements/" ++ k ++ rest1) v1)
    = Ok (t1, ObjectPrototype) /\
    applyPatch_object t1 (mkPatch o2 (js "/elements/" ++ k ++ rest2) v2)
    = Ok (t2, ObjectPrototype) /\
    elements t2 !! k = Some v2 /\
    lookup_element (elements t2) ObjectPrototype k = Value v2 /\
    t2 = {| root := root t; elements := <[k := v2]> (elements t) |}.
Proof.
  intros Hk Hp H1 H2 Ho1 Ho2.
  eexists. eexists. split; [by apply applyPatch_element|].
  split; [by apply applyPatch_element|]. cbn [root elements].
  unfold lookup_element. rewrite lookup_insert_eq.
  repeat split; try done. f_equal. apply insert_insert_eq.
Qed.

Lemma applyPatch_last_write_wins_witness :
  valid_key (js "card") = true /\ str_eqb (js "card") (js "__proto__") = false /\
  exists t1 t2,
    applyPatch_object emptyTree
      (mkPatch (js "add") (js "/elements/" ++ js "card" ++ []) (card_element []))
    = Ok (t1, ObjectPrototype) /\
    applyPatch_object t1 (mkPatch (js "set") (js "/elements/" ++ js "card" ++ js "/props") (str "x"))
    = Ok (t2, ObjectPrototype) /\
    elements t2 !! js "card" = Some (str "x") /\
    lookup_element (elements t2) ObjectPrototype (js "card") = Value (str "x") /\
    t2 = {| root := root emptyTree; elements := <[js "card" := str "x"]> (elements emptyTree) |}.
Proof.
  split; [reflexivity|]. split; [reflexivity|].
  apply (applyPatch_last_write_wins emptyTree (js "card") (js "add") (js "set")
           [] (js "/props") (card_element []) (str "x")); reflexivity.
Defined.

(** C1. The specification has two patches on [/elements/k] leave the
    second value as the element at [k], for every key. The key
    [__proto__] is a missed case of the assignment
    [newTree.elements[key] = patch.value]: it runs the setter that the
    elements object inherits, so no element is stored. With two element
    records as values the tree returned is empty, the second record has
    become the prototype of its elements object, the members of that
    record are read as if they were elements of the tree, and the next
    patch, here one on [/root], loses the record altogether. With a
    string as second value a read at the key gives a built-in object. *)
Theorem applyPatch_proto_key_not_stored :
  let v1 := obj [("key", str "a"); ("type", str "Text");
                 ("props", obj [("content", str "one")])]%string in
  let v2 := obj [("key", str "b"); ("type", str "Text");
                 ("props", obj [("content", str "two")])]%string in
  let p1 := mkPatch (js "add") (js "/elements/__proto__") v1 in
  let p2 := mkPatch (js "set") (js "/elements/__proto__") v2 in
  let p2' := mkPatch (js "set") (js "/elements/__proto__") (str "b") in
  let p3 := mkPatch (js "set") (js "/root") (str "card") in
  valid_key (js "__proto__") = true /\
  exists t1 proto1 t2 proto2,
    applyPatch_object emptyTree p1 = Ok (t1, proto1) /\
    applyPatch_object t1 p2 = Ok (t2, proto2) /\
    applyPatch t1 p2 = Ok t2 /\
    t2 = emptyTree /\
    elements t2 !! js "__proto__" = None /\
    (exists props, proto2 = ObjectValue props /\ v2 = VObj props) /\
    lookup_element (elements t2) proto2 (js "type") = Value (str "Text") /\
    (exists t3 proto3,
       applyPatch_object t2 p3 = Ok (t3, proto3) /\
       lookup_element (elements t3) proto3 (js "__proto__") = BuiltIn /\
       lookup_element (elements t3) proto3 (js "type") = Value VUndefined) /\
    (exists t2' proto2',
       applyPatch_object t1 p2' = Ok (t2', proto2') /\
       elements t2' !! js "__proto__" = None /\
       lookup_element (elements t2') proto2' (js "__proto__") = BuiltIn).
Proof.
  intros v1 v2 p1 p2 p2' p3. split; [reflexivity|].
  eexists. eexists. eexists. eexists.
  split; [reflexivity|]. split; [reflexivity|]. split; [reflexivity|].
  split; [reflexivity|]. split; [reflexivity|].
  split; [by eexists|]. split; [by vm_compute|].
  split; [eexists; eexists; split; [reflexivity|]; split; by vm_compute|].
  eexists. eexists. split; [reflexivity|]. split; [reflexivity | by vm_compute].
Qed.

(** C2. A patch on [/root] makes its value the root of the result,
    whatever the root was before (and whatever the op). *)
Theorem applyPatch_root (t : UITree) (o v : jsvalue) :
  applyPatch t {| op := o; path := VStr (js "/root"); value := v |}
  = Ok {| root := v; elements := elements t |}.
Proof. reflexivity. Qed.

(** A patch whose path is a string that is neither [/root] nor begins
    with [/elements/] changes nothing. *)
Lemma applyPatch_other_path (t : UITree) (o v : jsvalue) (p : jsstring) :
  str_eqb p (js "/root") = false -> startsWith p (js "/elements/") = false ->
  applyPatch t {| op := o; path := VStr p; value := v |} = Ok t.
Proof.
  intros H1 H2. unfold applyPatch, applyPatch_object.
  cbn [path is_str path_startsWith bind]. rewrite H1, H2. cbn [bind fst].
  by rewrite tree_eta.
Qed.

(** A patch on an [/elements/...] path whose op is neither set nor add
    changes nothing. *)
Lemma applyPatch_element_other_op (t : UITree) (o v : jsvalue) (p : jsstring) :
  startsWith p (js "/elements/") = true ->
  is_str o (js "set") = false -> is_str o (js "add") = false ->
  applyPatch t {| op := o; path := VStr p; value := v |} = Ok t.
Proof.
  intros Hp H1 H2. unfold applyPatch, applyPatch_object.
  cbn [path op is_str path_startsWith bind].
  assert (str_eqb p (js "/root") = false) as ->.
  { destruct p as [|c0 [|c1 p]]; simpl in Hp.
    - discriminate.
    - rewrite andb_false_r in Hp. discriminate.
    - apply andb_prop in Hp as [_ Hp]. apply andb_prop in Hp as [Hc _].
      apply N.eqb_eq in Hc. subst c1. simpl. by rewrite andb_false_r. }
  rewrite Hp. fold (is_str o (js "set")). fold (is_str o (js "add")).
  rewrite H1, H2, andb_false_r. cbn [bind fst]. by rewrite tree_eta.
Qed.

(** C3. The specification makes a [/root] patch whose op is neither set
    nor add a no-op; [applyPatch] tests the op on the [/elements/] branch
    only, and here a [remove] on [/root] replaces the root. *)
Theorem applyPatch_root_ignores_op :
  let t := {| root := str "a"; elements := ∅ |} in
  applyPatch t (mkPatch (js "remove") (js "/root") (str "b"))
  = Ok {| root := str "b"; elements := ∅ |}
  /\ applyPatch t (mkPatch (js "remove") (js "/root") (str "b")) <> Ok t.
Proof. split; [reflexivity | discriminate]. Qed.

(** No patch at all writes under the empty key. *)
Lemma applyPatch_keeps_empty_key (t : UITree) (patch : Patch) :
  match applyPatch t patch with
  | Ok t' => elements t' !! ([] : jsstring) = elements t !! ([] : jsstring)
  | Throw _ => True
  end.
Proof.
  unfold applyPatch, applyPatch_object.
  destruct (is_str (path patch) (js "/root")); [done|].
  destruct (path_startsWith _ _) as [[|]|]; cbn [bind]; try done.
  destruct (path_key _ _) as [|c key]; [done|]. cbn [truthy andb].
  destruct (_ || _); [|done]. unfold assign.
  destruct (_ && _); cbn [bind fst elements]; [done|]. by rewrite lookup_insert_ne.
Qed.

(** C10. A patch whose path is exactly [/elements/] has the empty key and
    changes nothing, also with op set or add: the result is the input
    tree, and it holds under the empty key what the input held. *)
Theorem applyPatch_empty_key (t : UITree) (o : jsstring) (v : jsvalue) :
  applyPatch t (mkPatch o (js "/elements/") v) = Ok t
  /\ match applyPatch t (mkPatch o (js "/elements/") v) with
     | Ok t' => elements t' !! ([] : jsstring) = elements t !! ([] : jsstring)
     | Throw _ => False
     end.
Proof.
  assert (H : applyPatch t (mkPatch o (js "/elements/") v) = Ok t).
  { unfold applyPatch, applyPatch_object, mkPatch. cbn. by rewrite tree_eta. }
  by rewrite H.
Qed.

(** ** applyPatch leaves its input alone *)

Lemma fresh_lookup_None (h : Store.store) : h !! fresh (dom h) = None.
Proof. apply not_elem_of_dom, is_fresh. Qed.

(** The two allocations of [Store.applyPatch]: both references are new,
    they differ, and every cell of the old store is still there. *)
Lemma alloc_two (h : Store.store) (c1 : Store.cell) (c2 : Store.loc -> Store.cell) :
  let '(h1, l1) := Store.alloc h c1 in
  let '(h2, l2) := Store.alloc h1 (c2 l1) in
  h !! l1 = None /\ h !! l2 = None /\ l1 <> l2 /\
  h2 !! l1 = Some c1 /\ h2 !! l2 = Some (c2 l1) /\
  (forall l, is_Some (h !! l) -> h2 !! l = h !! l /\ l <> l1 /\ l <> l2).
Proof.
  unfold Store.alloc. set (l1 := fresh (dom h)). set (h1 := <[l1 := c1]> h).
  set (l2 := fresh (dom h1)).
  assert (H1 : h !! l1 = None) by apply fresh_lookup_None.
  assert (H2 : h1 !! l2 = None) by apply fresh_lookup_None.
  assert (Hne : l1 <> l2).
  { intros Heq. rewrite <- Heq in H2. unfold h1 in H2. by rewrite lookup_insert_eq in H2. }
  assert (H3 : h !! l2 = None).
  { unfold h1 in H2. by rewrite lookup_insert_ne in H2. }
  repeat split; try done.
  - rewrite lookup_insert_ne by done. unfold h1. by rewrite lookup_insert_eq.
  - by rewrite lookup_insert_eq.
  - assert (l <> l1) by (intros ->; rewrite H1 in H; by destruct H).
    assert (l <> l2) by (intros ->; rewrite H3 in H; by destruct H).
    rewrite lookup_insert_ne by done. unfold h1. by rewrite lookup_insert_ne.
  - intros ->. rewrite H1 in H. by destruct H.
  - intros ->. rewrite H3 in H. by destruct H.
Qed.

(** C9. [applyPatch] does not write to its input: every object that
    existed before the call, the input tree and its elements object among
    them, is unchanged after it; the tree returned and its elements object
    are newly allocated copies, and the tree value they hold is the one
    the applier computes. It throws only where the applier does. *)
Theorem applyPatch_does_not_mutate
    (h : Store.store) (tree : Store.loc) (t : UITree) (patch : Patch) :
  Store.read_tree h tree = Some t ->
  match Store.applyPatch h tree patch with
  | Ok (h', newTree) =>
      (forall l, is_Some (h !! l) -> h' !! l = h !! l) /\
      Store.read_tree h' tree = Some t /\
      h !! newTree = None /\
      (exists r e, h' !! newTree = Some (Store.TreeObj r e) /\ h !! e = None) /\
      (exists t', applyPatch t patch = Ok t' /\ Store.read_tree h' newTree = Some t')
  | Throw e => applyPatch t patch = Throw e
  end.
Proof.
  unfold Store.read_tree, Store.applyPatch. intros Hread.
  destruct (h !! tree) as [[r e|]|] eqn:Htree; try done.
  destruct (h !! e) as [[|m pr]|] eqn:He; try done.
  injection Hread as <-.
  pose proof (alloc_two h (Store.ElementsObj m ObjectPrototype)
                (fun l => Store.TreeObj r l)) as Hal.
  destruct (Store.alloc h (Store.ElementsObj m ObjectPrototype)) as [h1 le].
  destruct (Store.alloc h1 (Store.TreeObj r le)) as [h2 lt].
  destruct Hal as (Hle & Hlt & Hne & H2le & H2lt & Hold).
  assert (Htree2 : h2 !! tree = Some (Store.TreeObj r e) /\ tree <> le /\ tree <> lt).
  { rewrite <- Htree. apply Hold. by rewrite Htree. }
  assert (He2 : h2 !! e = Some (Store.ElementsObj m pr) /\ e <> le /\ e <> lt).
  { rewrite <- He. apply Hold. by rewrite He. }
  destruct Htree2 as (Htree2 & ? & ?). destruct He2 as (He2 & ? & ?).
  unfold applyPatch, applyPatch_object. cbn [root elements].
  destruct (is_str (path patch) (js "/root")).
  { unfold Store.set_root. rewrite H2lt.
    split; [|split; [|split; [|split]]].
    - intros l Hl. destruct (Hold l Hl) as (Heq & ? & ?). by rewrite lookup_insert_ne.
    - rewrite lookup_insert_ne by done. rewrite Htree2.
      rewrite lookup_insert_ne by done. by rewrite He2.
    - done.
    - exists (value patch), le. by rewrite lookup_insert_eq.
    - eexists. split; [done|]. rewrite lookup_insert_eq.
      rewrite lookup_insert_ne by done. by rewrite H2le. }
  destruct (path_startsWith (path patch) (js "/elements/")) as [b|ex]; cbn [bind]; [|done].
  assert (Hcopy :
    (forall l, is_Some (h !! l) -> h2 !! l = h !! l) /\
    match h2 !! tree with
    | Some (Store.TreeObj r0 e0) =>
        match h2 !! e0 with
        | Some (Store.ElementsObj m0 _) => Some {| root := r0; elements := m0 |}
        | _ => None
        end
    | _ => None
    end = Some {| root := r; elements := m |} /\
    h !! lt = None /\
    (exists r0 e0, h2 !! lt = Some (Store.TreeObj r0 e0) /\ h !! e0 = None) /\
    (exists t', Ok {| root := r; elements := m |} = Ok t' /\
       match h2 !! lt with
       | Some (Store.TreeObj r0 e0) =>
           match h2 !! e0 with
           | Some (Store.ElementsObj m0 _) => Some {| root := r0; elements := m0 |}
           | _ => None
           end
       | _ => None
       end = Some t')).
  { split; [|split; [|split; [|split]]].
    - intros l Hl. by destruct (Hold l Hl).
    - by rewrite Htree2, He2.
    - done.
    - by exists r, le.
    - eexists. split; [done|]. by rewrite H2lt, H2le. }
  destruct b; [|exact Hcopy].
  destruct (truthy _ && _); [|exact Hcopy].
  unfold Store.set_element. rewrite H2lt, H2le.
  destruct (assign m _ (value patch)) as [m' pr'].
  split; [|split; [|split; [|split]]].
  - intros l Hl. destruct (Hold l Hl) as (Heq & ? & ?). by rewrite lookup_insert_ne.
  - rewrite lookup_insert_ne by done. rewrite Htree2.
    rewrite lookup_insert_ne by done. by rewrite He2.
  - done.
  - exists r, le. by rewrite lookup_insert_ne.
  - eexists. split; [done|]. rewrite lookup_insert_ne by done. rewrite H2lt.
    by rewrite lookup_insert_eq.
Qed.

Lemma applyPatch_does_not_mutate_witness :
  let h : Store.store :=
    <[1%positive := Store.TreeObj (str "a") 2%positive]>
      (<[2%positive := Store.ElementsObj ∅ ObjectPrototype]> ∅) in
  let patch := mkPatch (js "add") (js "/elements/x") (str "v") in
  Store.read_tree h 1%positive = Some {| root := str "a"; elements := ∅ |} /\
  match Store.applyPatch h 1%positive patch with
  | Ok (h', newTree) =>
      (forall l, is_Some (h !! l) -> h' !! l = h !! l) /\
      Store.read_tree h' 1%positive = Some {| root := str "a"; elements := ∅ |} /\
      h !! newTree = None /\
      (exists r e, h' !! newTree = Some (Store.TreeObj r e) /\ h !! e = None) /\
      (exists t', applyPatch {| root := str "a"; elements := ∅ |} patch = Ok t' /\
                  Store.read_tree h' newTree = Some t')
  | Throw e => applyPatch {| root := str "a"; elements := ∅ |} patch = Throw e
  end.
Proof.
  intros h patch.
  assert (Hread : Store.read_tree h 1%positive = Some {| root := str "a"; elements := ∅ |})
    by reflexivity.
  split; [exact Hread|].
  exact (applyPatch_does_not_mutate h 1%positive _ patch Hread).
Defined.

(** ** Lines that are not patches *)

Lemma parsePatch_rejected (line : jsstring) :
  rejected line = true -> parsePatch line = VNull.
Proof.
  unfold rejected, parsePatch. cbn zeta.
  destruct (trim line) as [|c tl] eqn:Htrim; [done|].
  cbn [truthy negb orb].
  destruct (startsWith (c :: tl) (js "//")); [done|].
  by destruct (JSON.parse (c :: tl)).
Qed.

Lemma process_lines_app (st : LoopState) (l1 l2 : list jsstring) :
  process_lines st (l1 ++ l2)
  = match process_lines st l1 with
    | (st1, None) => process_lines st1 l2
    | (st1, Some e) => (st1, Some e)
    end.
Proof.
  revert st. induction l1 as [|l l1 IH]; intros st; simpl; [done|].
  destruct (process_line st l); [apply IH | done].
Qed.

(** C5. A line that fails JSON parsing, trims to nothing or is a comment
    makes [parsePatch] return null; the loop body leaves the whole state,
    the tree included, as it was and raises nothing, so the lines after it
    are processed exactly as if the line had not been there, in the loop
    and in the final flush alike. *)
Theorem malformed_line_skipped (line : jsstring) :
  rejected line = true ->
  parsePatch line = VNull /\
  (forall st, process_line st line = Ok st) /\
  (forall st before after,
     process_lines st (before ++ line :: after) = process_lines st (before ++ after)) /\
  (forall st, buffer st = line -> flush st = (st, None)).
Proof.
  intros Hrej. pose proof (parsePatch_rejected line Hrej) as Hnull.
  assert (Hline : forall st, process_line st line = Ok st).
  { intros st. unfold process_line. by rewrite Hnull. }
  repeat split; try done.
  - intros st before after. rewrite !process_lines_app.
    destruct (process_lines st before) as [st1 [e|]]; [done|].
    simpl. by rewrite Hline.
  - intros st Hbuf. unfold flush. rewrite Hbuf, Hline. by destruct (truthy _).
Qed.

Lemma malformed_line_skipped_witness :
  rejected (jsq "  {'op':'set','path':  ") = true /\
  parsePatch (jsq "  {'op':'set','path':  ") = VNull /\
  (forall st, process_line st (jsq "  {'op':'set','path':  ") = Ok st) /\
  (forall st before after,
     process_lines st (before ++ jsq "  {'op':'set','path':  " :: after)
     = process_lines st (before ++ after)) /\
  (forall st, buffer st = jsq "  {'op':'set','path':  " -> flush st = (st, None)).
Proof.
  split; [reflexivity|].
  apply (malformed_line_skipped (jsq "  {'op':'set','path':  ")). reflexivity.
Defined.

(** ** Chunk boundaries do not matter *)

Lemma decode_app (d : TextDecoder.decoder) (a b : list Byte.byte) :
  TextDecoder.decode d (a ++ b)
  = let '(d1, out1) := TextDecoder.decode d a in
    let '(d2, out2) := TextDecoder.decode d1 b in
    (d2, out1 ++ out2).
Proof.
  revert d. induction a as [|x a IH]; intros d; simpl.
  - by destruct (TextDecoder.decode d b).
  - destruct (TextDecoder.decode_byte d x) as [d1 o1]. rewrite IH.
    destruct (TextDecoder.decode d1 a) as [d2 o2].
    destruct (TextDecoder.decode d2 b) as [d3 o3]. by rewrite app_assoc.
Qed.

Lemma removelast_cons {A} (x : A) (l : list A) :
  l <> [] -> removelast (x :: l) = x :: removelast l.
Proof. by destruct l. Qed.

Lemma last_cons_nonempty {A} (x : A) (l : list A) :
  l <> [] -> last (x :: l) = last l.
Proof. by destruct l. Qed.

Lemma removelast_app_nonempty {A} (l1 l2 : list A) :
  l2 <> [] -> removelast (l1 ++ l2) = l1 ++ removelast l2.
Proof.
  intros H. induction l1 as [|x l1 IH]; [done|].
  simpl app. rewrite removelast_cons; [by rewrite IH|]. by destruct l1, l2.
Qed.

Lemma last_app_nonempty {A} (l1 l2 : list A) :
  l2 <> [] -> last (l1 ++ l2) = last l2.
Proof.
  intros H. induction l1 as [|x l1 IH]; [done|].
  simpl app. rewrite last_cons_nonempty; [done|]. by destruct l1, l2.
Qed.

(** Splitting a text that arrives in two parts: the complete lines of the
    first part, then the split of what the first part left over followed
    by the second part. *)
Lemma split_app (sep : N) (a b : jsstring) :
  split sep (a ++ b)
  = removelast (split sep a) ++ split sep (default [] (last (split sep a)) ++ b).
Proof.
  induction a as [|x a IH]; [done|].
  pose proof (split_nonempty sep a) as Hne.
  simpl. destruct (N.eqb x sep) eqn:Hx.
  - rewrite removelast_cons, last_cons_nonempty by done. simpl. by rewrite IH.
  - rewrite IH. destruct (split sep a) as [|h [|h' t]]; [done| |].
    + simpl. rewrite Hx. by destruct (split sep (h ++ b)).
    + rewrite removelast_cons by done. rewrite (removelast_cons (x :: h)) by done.
      rewrite (last_cons_nonempty (x :: h)) by done.
      rewrite (last_cons_nonempty h) by done. done.
Qed.

Lemma split_no_newline (s : jsstring) : no_newline s = true -> split 10 s = [s].
Proof.
  induction s as [|c s IH]; [done|]. simpl. intros [Hc Hs]%andb_prop.
  apply negb_true_iff in Hc. rewrite Hc, IH; done.
Qed.

Lemma split_last_no_newline (s : jsstring) :
  no_newline (default [] (last (split 10 s))) = true.
Proof.
  induction s as [|c s IH]; [done|].
  pose proof (split_nonempty 10 s) as Hne. simpl.
  destruct (N.eqb c 10) eqn:Hc.
  - by rewrite last_cons_nonempty.
  - destruct (split 10 s) as [|h [|h' t]]; [done| |].
    + simpl in *. by rewrite Hc.
    + rewrite (last_cons_nonempty (c :: h)) by done.
      by rewrite (last_cons_nonempty h) in IH.
Qed.

Lemma process_line_view (st1 st2 : LoopState) (line : jsstring) :
  view st1 = view st2 ->
  match process_line st1 line, process_line st2 line with
  | Ok s1, Ok s2 =>
      view s1 = view s2 /\
      decoder s1 = decoder st1 /\ buffer s1 = buffer st1 /\
      decoder s2 = decoder st2 /\ buffer s2 = buffer st2
  | Throw e1, Throw e2 => e1 = e2
  | _, _ => False
  end.
Proof.
  unfold view, process_line. intros [= Hc Ht Hs Hp]. rewrite Hc, Hs.
  destruct (truthy (parsePatch line)); [|by rewrite Hc, Ht, Hs, Hp].
  by destruct (applyPatch_object (currentTree st2) _).
Qed.

Lemma process_lines_view (lines : list jsstring) (st1 st2 : LoopState) :
  view st1 = view st2 ->
  agree (process_lines st1 lines) (process_lines st2 lines) /\
  decoder (fst (process_lines st1 lines)) = decoder st1 /\
  buffer (fst (process_lines st1 lines)) = buffer st1.
Proof.
  revert st1 st2. induction lines as [|l lines IH]; intros st1 st2 Hv; [done|].
  simpl. pose proof (process_line_view st1 st2 l Hv) as Hl.
  destruct (process_line st1 l) as [s1|e1], (process_line st2 l) as [s2|e2]; try done.
  - destruct Hl as (Hv' & Hd1 & Hb1 & _). destruct (IH s1 s2 Hv') as (? & ? & ?).
    repeat split; congruence || tauto || (by destruct H).
  - subst. done.
Qed.

Lemma flush_view (st1 st2 : LoopState) :
  view st1 = view st2 -> buffer st1 = buffer st2 -> agree (flush st1) (flush st2).
Proof.
  intros Hv Hb. unfold flush. rewrite Hb.
  destruct (truthy _); [|done].
  pose proof (process_line_view st1 st2 (buffer st2) Hv) as Hl.
  destruct (process_line st1 _), (process_line st2 _); try done.
  - split; [done | tauto].
  - by subst.
Qed.

Lemma agree_trans (r1 r2 r3 : LoopState * option exn) :
  agree r1 r2 -> agree r2 r3 -> agree r1 r3.
Proof. unfold agree. intros [? ?] [? ?]. split; congruence. Qed.

Lemma agree_sym (r1 r2 : LoopState * option exn) : agree r1 r2 -> agree r2 r1.
Proof. unfold agree. intros [? ?]. by split. Qed.

Lemma consume_text_view (st1 st2 : LoopState) d text :
  view st1 = view st2 -> buffer st1 = buffer st2 ->
  agree (consume_text st1 d text) (consume_text st2 d text).
Proof.
  intros Hv Hb. unfold consume_text. rewrite Hb.
  destruct (process_lines_view (removelast (split 10 (buffer st2 ++ text))) st1 st2 Hv)
    as ([He Hv'] & _).
  destruct (process_lines st1 _) as [s1 e1], (process_lines st2 _) as [s2 e2].
  simpl in He, Hv'. subst e2. destruct e1; [done|].
  apply flush_view; [|done]. unfold view in *. simpl. congruence.
Qed.

(** The reader loop over any chunks does what [consume_text] does to the
    decoded text of their concatenation. *)
Lemma read_loop_text (chunks : list (list Byte.byte)) (st : LoopState) :
  no_newline (buffer st) = true ->
  agree (read_loop st chunks)
        (let '(d, text) := TextDecoder.decode (decoder st) (concat chunks) in
         consume_text st d text).
Proof.
  revert st. induction chunks as [|c chunks IH]; intros st Hnl.
  - simpl. unfold consume_text. rewrite app_nil_r, split_no_newline by done.
    simpl. destruct st; done.
  - simpl concat. rewrite decode_app. simpl read_loop. unfold read_chunk.
    destruct (TextDecoder.decode (decoder st) c) as [d1 o1].
    destruct (TextDecoder.decode d1 (concat chunks)) as [d2 o2] eqn:Hd2.
    set (L1 := split 10 (buffer st ++ o1)).
    set (st0 := mkLoop d1 (default [] (last L1)) (currentTree st) (tree st) (streamLines st)
                  (elementsProto st)).
    assert (Hv0 : view st0 = view st) by done.
    destruct (process_lines_view (removelast L1) st0 st Hv0) as ([He Hv1] & Hdec & Hbuf).
    unfold consume_text. rewrite app_assoc, split_app. fold L1.
    rewrite removelast_app_nonempty, last_app_nonempty by apply split_nonempty.
    rewrite process_lines_app.
    destruct (process_lines st0 (removelast L1)) as [s1 e1].
    destruct (process_lines st (removelast L1)) as [s1' e1'].
    simpl in He, Hv1, Hdec, Hbuf. subst e1'. destruct e1 as [e|]; [done|].
    assert (Hnl1 : no_newline (buffer s1) = true).
    { rewrite Hbuf. apply split_last_no_newline. }
    specialize (IH s1 Hnl1). rewrite Hdec, Hd2 in IH.
    eapply agree_trans; [exact IH|].
    unfold consume_text. rewrite Hbuf. simpl buffer.
    set (L2 := split 10 (default [] (last L1) ++ o2)).
    destruct (process_lines_view (removelast L2) s1 s1' Hv1) as ([He2 Hv2] & _).
    destruct (process_lines s1 (removelast L2)) as [s2 e2].
    destruct (process_lines s1' (removelast L2)) as [s2' e2'].
    simpl in He2, Hv2. subst e2'. destruct e2; [done|].
    apply flush_view; [|done]. unfold view in *. simpl. congruence.
Qed.

(** The loop on any chunks ends as it does on their concatenation
    delivered at once. *)
Lemma handleSubmit_concat (chunks : list (list Byte.byte)) :
  handleSubmit chunks = handleSubmit [concat chunks].
Proof.
  unfold handleSubmit.
  pose proof (read_loop_text chunks loop_init eq_refl) as H1.
  pose proof (read_loop_text [concat chunks] loop_init eq_refl) as H2.
  simpl concat in H2. rewrite app_nil_r in H2.
  pose proof (agree_trans _ _ _ H1 (agree_sym _ _ H2)) as [He Hv].
  destruct (read_loop loop_init chunks) as [s1 e1].
  destruct (read_loop loop_init [concat chunks]) as [s2 e2].
  simpl in He, Hv. unfold view in Hv. by injection Hv as _ -> -> ->; subst.
Qed.

(** C4. However the bytes of a response are cut into chunks, also in the
    middle of a line or of a character, the loop ends with the tree (and
    the stream lines, and the exception caught, if any) that it ends with
    when the same bytes arrive as one chunk. *)
Theorem handleSubmit_chunking_invariant (chunks : list (list Byte.byte)) :
  final_tree (handleSubmit chunks) = final_tree (handleSubmit [concat chunks])
  /\ handleSubmit chunks = handleSubmit [concat chunks].
Proof. by rewrite handleSubmit_concat. Qed.

(** Any two ways of cutting the same bytes give the same outcome. *)
Corollary handleSubmit_resplit (chunks1 chunks2 : list (list Byte.byte)) :
  concat chunks1 = concat chunks2 -> handleSubmit chunks1 = handleSubmit chunks2.
Proof.
  intros H. rewrite (handleSubmit_concat chunks1), (handleSubmit_concat chunks2).
  by rewrite H.
Qed.

(** One patch line delivered in three pieces, the last without a final
    newline, against the same line in one chunk. *)
Example handleSubmit_three_pieces :
  handleSubmit [bytesq "{'op':'set','pa"; bytesq "th':'/root','va"; bytesq "lue':'card'}"]
  = handleSubmit [bytesq "{'op':'set','path':'/root','value':'card'}"]
  /\ root (final_tree (handleSubmit [bytesq "{'op':'set','pa"; bytesq "th':'/root','va";
                                bytesq "lue':'card'}"])) = str "card".
Proof. split; [by apply handleSubmit_resplit | by vm_compute]. Qed.

(** ** The scripted fixture *)

(** C6. The specification expects the five scripted patch lines to build
    a tree whose root element has the children name, email, message and
    submit, as the tree recorded with the last stage has. Applied in order
    to the empty tree they build a tree whose root element has the single
    child name, and no element under that key: the only line about the
    card is the second one, and no line adds the name input. *)
Theorem fixture_stream_builds_one_child :
  exists t final,
    apply_lines emptyTree (map stream SIMULATION_STAGES) = Ok t /\
    root t = str "card" /\
    root_children t = arr [str "name"] /\
    elements t !! js "name" = None /\
    last SIMULATION_STAGES = Some final /\
    root_children (stage_tree final)
    = arr [str "name"; str "email"; str "message"; str "submit"] /\
    root_children t <> root_children (stage_tree final).
Proof.
  eexists. eexists. split; [by vm_compute|].
  split; [by vm_compute|]. split; [by vm_compute|]. split; [by vm_compute|].
  split; [reflexivity|]. split; [by vm_compute|]. by vm_compute.
Qed.

(** The same lines sent through the reader loop as one response body,
    one line per patch. *)
Example fixture_stream_through_reader :
  let body := latin_bytes (join [10%N] (map stream SIMULATION_STAGES)) in
  caught (handleSubmit [body]) = None /\
  length (final_streamLines (handleSubmit [body])) = 5%nat /\
  root_children (final_tree (handleSubmit [body])) = arr [str "name"].
Proof. by vm_compute. Qed.

(** ** The renderer on unknown types and dangling references *)

Section RenderProperties.

Variable ToString : jsvalue -> result jsstring.
Variable renderLeaf : jsvalue -> result node.
Variable proto : prototype.

Lemma join_items_strings (items : list jsvalue) :
  forallb is_string items = true ->
  join_items ToString items = Ok (map string_of items).
Proof.
  induction items as [|v items IH]; [done|]. simpl.
  intros [Hv Hi]%andb_prop. destruct v; try done. simpl. by rewrite IH.
Qed.

Lemma customClass_typed (props : jsvalue) :
  well_typed_props props = true ->
  customClass_of ToString props = Ok (className_strings props).
Proof.
  unfold well_typed_props, customClass_of, className_strings, prop.
  destruct props; try done. cbn [bind].
  destruct (get _ _); try done. intros H. by rewrite join_items_strings.
Qed.

Lemma in_list_false (s x : jsstring) (l : list jsstring) :
  in_list s l = false -> In x l -> str_eqb s x = false.
Proof.
  unfold in_list. induction l as [|y l IH]; [done|]. simpl.
  intros [Hy Hl]%orb_false_elim [->|Hin]; [done | by apply IH].
Qed.

Lemma in_list_app (s : jsstring) (l1 l2 : list jsstring) :
  in_list s (l1 ++ l2) = in_list s l1 || in_list s l2.
Proof. apply existsb_app. Qed.

(** The default branch of the switch: what [renderElement] does on a
    type tag that is none of the 21 labels. *)
Lemma unknown_type_default
    (depth : nat) (element : jsvalue) (els : gmap jsstring jsvalue) :
  type_in (get element (js "type")) switch_labels = false ->
  renderElement ToString renderLeaf proto (S depth) element els
  = match customClass_of ToString (get element (js "props")) with
    | Ok customClass => Some (Ok (placeholder element customClass))
    | Throw e => Some (Throw e)
    end.
Proof.
  intros Hcat. cbn [renderElement]. unfold placeholder.
  destruct (customClass_of ToString (get element (js "props"))) as [cc|]; [|done].
  destruct (get element (js "type")) as [| | | |ty| |] eqn:Hty; try done.
  cbn [type_in] in Hcat. unfold switch_labels in Hcat. rewrite in_list_app in Hcat.
  apply orb_false_elim in Hcat as [Hcont Hleaf].
  cbn [is_str type_in]. rewrite Hleaf.
  rewrite !(in_list_false ty _ container_kinds Hcont) by (simpl; tauto).
  reflexivity.
Qed.

(** The default branch on an element with well-typed props. *)
Lemma unknown_type_placeholder
    (depth : nat) (element : jsvalue) (els : gmap jsstring jsvalue) (ty : jsstring) :
  get element (js "type") = VStr ty ->
  in_list ty switch_labels = false ->
  well_typed_props (get element (js "props")) = true ->
  renderElement ToString renderLeaf proto (S depth) element els
  = Some (Ok (NElement "div" (get element (js "key"))
                (js "text-[10px] text-muted-foreground " ++ baseClass ++ sp
                   ++ className_strings (get element (js "props")))
                [NText (js "["); NValue (VStr ty); NText (js "]")])).
Proof.
  intros Hty Hcat Hprops. rewrite unknown_type_default by (by rewrite Hty).
  rewrite (customClass_typed _ Hprops). unfold placeholder. by rewrite Hty.
Qed.



(** A container kind wraps what [renderChildren] returns in its markup
    and passes its exceptions on. *)
Lemma container_renders_children
    (depth : nat) (element : jsvalue) (els : gmap jsstring jsvalue) (ty : jsstring) :
  get element (js "type") = VStr ty ->
  in_list ty container_kinds = true ->
  well_typed_props (get element (js "props")) = true ->
  exists wrap,
    (forall ns, inside (NArray ns) (wrap ns)) /\
    renderElement ToString renderLeaf proto (S depth) element els
    = wrap_children wrap
        (renderChildren_with ToString proto
           (fun child => renderElement ToString renderLeaf proto depth child els)
           els (childKeys_of element)).
Proof.
  intros Hty Hcont Hprops.
  cbn [renderElement]. rewrite (customClass_typed _ Hprops), Hty. cbn [is_str type_in].
  unfold in_list, container_kinds in Hcont. cbn [map existsb] in Hcont.
  rewrite orb_false_r in Hcont.
  destruct (str_eqb ty (js "Card")) eqn:HCard.
  { eexists. split; [|reflexivity]. intros ns.
    eapply inside_child; [right; right; left; reflexivity|].
    eapply inside_child; [left; reflexivity|]. constructor. }
  destruct (str_eqb ty (js "Stack")) eqn:HStack.
  { eexists. split; [|reflexivity]. intros ns.
    eapply inside_child; [left; reflexivity|]. constructor. }
  destruct (str_eqb ty (js "Grid")) eqn:HGrid.
  { eexists. split; [|reflexivity]. intros ns.
    eapply inside_child; [left; reflexivity|]. constructor. }
  simpl in Hcont. apply str_eqb_eq in Hcont. subst ty.
  eexists. split; [|reflexivity]. intros ns.
  eapply inside_child; [right; left; reflexivity|].
  eapply inside_child; [left; reflexivity|]. constructor.
Qed.

(** Every type tag selects a branch of the switch: a container kind, a
    kind that renders from the element alone, or the placeholder. *)
Lemma renderElement_dispatch
    (depth : nat) (element : jsvalue) (els : gmap jsstring jsvalue) :
  well_typed_props (get element (js "props")) = true ->
  (exists wrap,
     type_in (get element (js "type")) container_kinds = true /\
     renderElement ToString renderLeaf proto (S depth) element els
     = wrap_children wrap
         (renderChildren_with ToString proto
            (fun child => renderElement ToString renderLeaf proto depth child els)
            els (childKeys_of element)))
  \/ (type_in (get element (js "type")) leaf_kinds = true /\
      renderElement ToString renderLeaf proto (S depth) element els
      = Some (renderLeaf element))
  \/ (type_in (get element (js "type")) switch_labels = false /\
      exists cls,
        renderElement ToString renderLeaf proto (S depth) element els
        = Some (Ok (NElement "div" (get element (js "key")) cls
                      [NText (js "["); NValue (get element (js "type")); NText (js "]")]))).
Proof.
  intros Hprops.
  destruct (get element (js "type")) as [| | | |ty| |] eqn:Hty;
    try (right; right; split; [done|]; eexists;
         cbn [renderElement]; rewrite (customClass_typed _ Hprops), Hty; reflexivity).
  destruct (in_list ty container_kinds) eqn:Hcont.
  { left. destruct (container_renders_children depth element els ty Hty Hcont Hprops)
      as (wrap & _ & Heq). by exists wrap. }
  destruct (in_list ty leaf_kinds) eqn:Hleaf.
  { right; left. split; [done|].
    cbn [renderElement]. rewrite (customClass_typed _ Hprops), Hty.
    cbn [is_str type_in]. rewrite Hleaf.
    rewrite !(in_list_false ty _ container_kinds Hcont) by (simpl; tauto).
    reflexivity. }
  right; right. assert (Hcat : in_list ty switch_labels = false).
  { unfold switch_labels. by rewrite in_list_app, Hcont, Hleaf. }
  split; [done|]. eexists.
  by rewrite (unknown_type_placeholder depth element els ty Hty Hcat Hprops).
Qed.



End RenderProperties.

Section DanglingReferences.

Variable ToString : jsvalue -> result jsstring.
Variable renderLeaf : jsvalue -> result node.


End DanglingReferences.




(** C8. The specification has a child key or root key without an entry
    in the element map render as nothing. [elements[key]] also finds what
    the elements object inherits: a key such as constructor or toString
    has no entry, but the read gives a built-in function, which is truthy,
    and [renderElement] is called on it and throws a TypeError where it
    reads [props.className]. Here a card lists the child key constructor:
    rendering the card throws, and so does the preview; and a tree whose
    root key is toString makes the preview throw where the placeholder is
    expected. *)
Theorem dangling_reference_inherited_member :
  let card := card_element ["constructor"]%string in
  let t := {| root := str "card"; elements := <[js "card" := card]> ∅ |} in
  elements t !! js "constructor" = None /\
  elements t !! js "toString" = None /\
  (forall ToString renderLeaf depth,
     renderElement ToString renderLeaf ObjectPrototype (S depth) card (elements t)
     = Some (Throw TypeError)) /\
  (forall ToString renderLeaf depth isLoading actionFired,
     renderPreview ToString renderLeaf ObjectPrototype (S depth) (Some t)
       isLoading actionFired
     = Some (Throw TypeError)) /\
  (forall ToString renderLeaf depth isLoading actionFired,
     renderPreview ToString renderLeaf ObjectPrototype depth
       (Some {| root := str "toString"; elements := elements t |}) isLoading actionFired
     = Some (Throw TypeError)).
Proof. repeat split. Qed.

(** Before the first scripted stage there is no tree, and the preview
    waits; at the last stage the card is rendered. *)
Example renderPreview_simulation :
  renderPreview (fun _ => Throw TypeError) (fun e => Ok (NValue (get e (js "key"))))
    (currentProto_of simulation ObjectPrototype) 2
    (currentTree_of simulation (-1) None) false false
  = Some (Ok (waiting false))
  /\ exists n,
       renderPreview (fun _ => Throw TypeError) (fun e => Ok (NValue (get e (js "key"))))
         (currentProto_of simulation ObjectPrototype) 2
         (currentTree_of simulation 4 None) false false
       = Some (Ok n)
       /\ inside (NArray [NValue (str "name"); NValue (str "email");
                          NValue (str "message"); NValue (str "submit")]) n.
Proof.
  split; [reflexivity|]. eexists. split; [by vm_compute|].
  eapply inside_child; [left; reflexivity|].
  eapply inside_child; [left; reflexivity|].
  eapply inside_child; [right; right; left; reflexivity|].
  eapply inside_child; [left; reflexivity|]. constructor.
Qed.

(** ** JSON.parse stays within its recursion budget *)

Section ParseBudget.

Import JSON.
Local Open Scope N_scope.

Lemma skip_ws_length (s : jsstring) : (length (skip_ws s) <= length s)%nat.
Proof.
  induction s as [|c s IH]; simpl; [lia|]. destruct (is_ws c); simpl; lia.
Qed.

Lemma expect_length (c : N) (s rest : jsstring) :
  expect c s = Some rest -> length s = S (length rest).
Proof.
  destruct s as [|x s]; [done|]. simpl. destruct (x =? c); [|done]. by intros [= ->].
Qed.

Lemma take_digits_length (s : jsstring) :
  (length (fst (take_digits s)) + length (snd (take_digits s)) = length s)%nat.
Proof.
  induction s as [|c s IH]; simpl; [done|].
  destruct (is_digit c); [|simpl; lia].
  destruct (take_digits s) as [ds rest]. simpl in *. lia.
Qed.

Lemma parse_digits_shorter (s rest : jsstring) (ds : list N) :
  parse_digits s = Some (ds, rest) -> (length rest < length s)%nat.
Proof.
  unfold parse_digits. pose proof (take_digits_length s) as H.
  destruct (take_digits s) as [[|d ds'] r]; [done|].
  intros [= <- <-]. simpl in H. lia.
Qed.

Lemma parse_int_shorter (s rest : jsstring) (ds : list N) :
  parse_int s = Some (ds, rest) -> (length rest < length s)%nat.
Proof.
  unfold parse_int. destruct (expect 48 s) as [r|] eqn:He.
  - apply expect_length in He. intros [= _ <-]. lia.
  - apply parse_digits_shorter.
Qed.

Lemma parse_frac_shorter (s rest : jsstring) (ds : list N) :
  parse_frac s = Some (ds, rest) -> (length rest <= length s)%nat.
Proof.
  unfold parse_frac. destruct (expect 46 s) as [r|] eqn:He.
  - apply expect_length in He. intros H%parse_digits_shorter. lia.
  - by intros [= _ <-].
Qed.

Lemma parse_sign_length (plus : bool) (s : jsstring) :
  (length (snd (parse_sign plus s)) <= length s)%nat.
Proof.
  unfold parse_sign. destruct (expect 45 s) as [r|] eqn:He.
  - apply expect_length in He. simpl. lia.
  - destruct plus; [|done]. destruct (expect 43 s) as [r|] eqn:He'; [|done].
    apply expect_length in He'. simpl. lia.
Qed.

Lemma parse_exp_shorter (s rest : jsstring) (e : Z) :
  parse_exp s = Some (e, rest) -> (length rest <= length s)%nat.
Proof.
  unfold parse_exp. destruct s as [|c r]; [by intros [= <- <-]|].
  destruct ((c =? 101) || (c =? 69)); [|by intros [= <- <-]].
  pose proof (parse_sign_length true r) as Hsign.
  destruct (parse_sign true r) as [eneg r1]. simpl in Hsign.
  destruct (parse_digits r1) as [[ds r2]|] eqn:Hd; [|done].
  apply parse_digits_shorter in Hd. intros [= _ <-]. simpl. lia.
Qed.

Lemma parse_number_shorter (s rest : jsstring) (n : number) :
  parse_number s = Parsed n rest -> (length rest < length s)%nat.
Proof.
  unfold parse_number. pose proof (parse_sign_length false s) as Hsign.
  destruct (parse_sign false s) as [neg s1]. simpl in Hsign.
  destruct (parse_int s1) as [[ints s2]|] eqn:Hi; [|done].
  destruct (parse_frac s2) as [[fracs s3]|] eqn:Hf; [|done].
  destruct (parse_exp s3) as [[e s4]|] eqn:He; [|done].
  apply parse_int_shorter in Hi. apply parse_frac_shorter in Hf.
  apply parse_exp_shorter in He. intros [= _ <-]. lia.
Qed.

Lemma parse_number_no_budget (s : jsstring) : parse_number s <> OutOfFuel.
Proof.
  unfold parse_number. destruct (parse_sign false s) as [neg s1].
  destruct (parse_int s1) as [[ints s2]|]; [|done].
  destruct (parse_frac s2) as [[fracs s3]|]; [|done].
  by destruct (parse_exp s3) as [[e s4]|].
Qed.

Lemma parse_string_body_bounded (n : nat) (s : jsstring) :
  (length s <= n)%nat ->
  parse_string_body s <> OutOfFuel /\
  forall str rest, parse_string_body s = Parsed str rest -> (length rest < length s)%nat.
Proof.
  revert s. induction n as [|n IH]; intros s Hn.
  { destruct s; [done | simpl in Hn; lia]. }
  destruct s as [|c r]; [done|]. cbn [parse_string_body].
  assert (Hrec : forall r' (x : N), (length r' <= length r)%nat ->
            pbind (parse_string_body r') (fun str rest => Parsed (x :: str) rest) <> OutOfFuel /\
            forall str rest,
              pbind (parse_string_body r') (fun str rest => Parsed (x :: str) rest)
              = Parsed str rest -> (length rest < length (c :: r))%nat).
  { intros r' x Hr'. simpl in Hn. destruct (IH r' ltac:(lia)) as [Hne Hlt].
    destruct (parse_string_body r') as [str' rest'| |] eqn:Hp; simpl; try done.
    split; [done|]. intros str rest [= _ <-]. specialize (Hlt _ _ eq_refl). simpl. lia. }
  destruct (c =? 34).
  { split; [done|]. intros str rest [= _ <-]. simpl. lia. }
  destruct (c =? 92).
  - destruct r as [|e r1]; [done|].
    destruct (e =? 117).
    + destruct r1 as [|h1 [|h2 [|h3 [|h4 r2]]]]; try done.
      destruct (hex_digit h1), (hex_digit h2), (hex_digit h3), (hex_digit h4); try done.
      apply Hrec. simpl. lia.
    + destruct (escape_char e); [|done]. apply Hrec. simpl. lia.
  - destruct (c <? 32); [done|]. by apply Hrec.
Qed.

Lemma parse_string_body_shorter (s str rest : jsstring) :
  parse_string_body s = Parsed str rest -> (length rest < length s)%nat.
Proof. by apply (parse_string_body_bounded (length s) s). Qed.

Lemma parse_string_body_no_budget (s : jsstring) : parse_string_body s <> OutOfFuel.
Proof. by apply (parse_string_body_bounded (length s) s). Qed.

Lemma parse_shorter (fuel : nat) :
  (forall s v rest, parse_value fuel s = Parsed v rest -> (length rest < length s)%nat) /\
  (forall s vs rest, parse_elements fuel s = Parsed vs rest -> (length rest < length s)%nat) /\
  (forall s ms rest, parse_members fuel s = Parsed ms rest -> (length rest < length s)%nat).
Proof.
  induction fuel as [|fuel (IHv & IHe & IHm)]; [done|].
  split; [|split].
  - intros s v rest. cbn [parse_value].
    pose proof (skip_ws_length s) as Hws.
    destruct (skip_ws s) as [|c r] eqn:Hskip; [done|]. simpl in Hws.
    pose proof (skip_ws_length r) as Hws'.
    destruct (c =? 123).
    { destruct (expect 125 (skip_ws r)) as [r'|] eqn:He.
      - apply expect_length in He. intros [= _ <-]. lia.
      - destruct (parse_members fuel r) as [ms rest'| |] eqn:Hm; simpl; try done.
        apply IHm in Hm. intros [= _ <-]. lia. }
    destruct (c =? 91).
    { destruct (expect 93 (skip_ws r)) as [r'|] eqn:He.
      - apply expect_length in He. intros [= _ <-]. lia.
      - destruct (parse_elements fuel r) as [ms rest'| |] eqn:Hm; simpl; try done.
        apply IHe in Hm. intros [= _ <-]. lia. }
    destruct (c =? 34).
    { destruct (parse_string_body r) as [str rest'| |] eqn:Hp; simpl; try done.
      apply parse_string_body_shorter in Hp. intros [= _ <-]. lia. }
    destruct (startsWith (c :: r) (js "true")).
    { intros [= _ <-]. rewrite length_drop. simpl. lia. }
    destruct (startsWith (c :: r) (js "false")).
    { intros [= _ <-]. rewrite length_drop. simpl. lia. }
    destruct (startsWith (c :: r) (js "null")).
    { intros [= _ <-]. rewrite length_drop. simpl. lia. }
    destruct ((c =? 45) || is_digit c); [|done].
    destruct (parse_number (c :: r)) as [n rest'| |] eqn:Hp; simpl; try done.
    apply parse_number_shorter in Hp. intros [= _ <-]. simpl in Hp. lia.
  - intros s vs rest. cbn [parse_elements].
    destruct (parse_value fuel s) as [v r| |] eqn:Hv; simpl; try done.
    apply IHv in Hv. pose proof (skip_ws_length r) as Hws.
    destruct (skip_ws r) as [|c r']; [done|]. simpl in Hws.
    destruct (c =? 44).
    { destruct (parse_elements fuel r') as [vs' rest'| |] eqn:He; simpl; try done.
      apply IHe in He. intros [= _ <-]. lia. }
    destruct (c =? 93); [|done]. intros [= _ <-]. lia.
  - intros s ms rest. cbn [parse_members].
    pose proof (skip_ws_length s) as Hws.
    destruct (expect 34 (skip_ws s)) as [r|] eqn:Hq; [|done].
    apply expect_length in Hq.
    destruct (parse_string_body r) as [k r1| |] eqn:Hk; simpl; try done.
    apply parse_string_body_shorter in Hk. pose proof (skip_ws_length r1) as Hws1.
    destruct (expect 58 (skip_ws r1)) as [r2|] eqn:Hc; [|done].
    apply expect_length in Hc.
    destruct (parse_value fuel r2) as [v r3| |] eqn:Hv; simpl; try done.
    apply IHv in Hv. pose proof (skip_ws_length r3) as Hws3.
    destruct (skip_ws r3) as [|c r4]; [done|]. simpl in Hws3.
    destruct (c =? 44).
    { destruct (parse_members fuel r4) as [ms' rest'| |] eqn:Hm; simpl; try done.
      apply IHm in Hm. intros [= _ <-]. lia. }
    destruct (c =? 125); [|done]. intros [= _ <-]. lia.
Qed.

Lemma parse_budget (fuel : nat) :
  (forall s, (2 * length s < fuel)%nat -> parse_value fuel s <> OutOfFuel) /\
  (forall s, (2 * length s + 1 < fuel)%nat -> parse_elements fuel s <> OutOfFuel) /\
  (forall s, (2 * length s + 1 < fuel)%nat -> parse_members fuel s <> OutOfFuel).
Proof.
  induction fuel as [|fuel (IHv & IHe & IHm)]; [repeat split; intros; lia|].
  destruct (parse_shorter fuel) as (Sv & Se & Sm).
  split; [|split].
  - intros s Hf. cbn [parse_value].
    pose proof (skip_ws_length s) as Hws.
    destruct (skip_ws s) as [|c r] eqn:Hskip; [done|]. simpl in Hws.
    destruct (c =? 123).
    { destruct (expect 125 (skip_ws r)); [done|].
      specialize (IHm r ltac:(lia)). by destruct (parse_members fuel r). }
    destruct (c =? 91).
    { destruct (expect 93 (skip_ws r)); [done|].
      specialize (IHe r ltac:(lia)). by destruct (parse_elements fuel r). }
    destruct (c =? 34).
    { pose proof (parse_string_body_no_budget r). by destruct (parse_string_body r). }
    destruct (startsWith (c :: r) (js "true")); [done|].
    destruct (startsWith (c :: r) (js "false")); [done|].
    destruct (startsWith (c :: r) (js "null")); [done|].
    destruct ((c =? 45) || is_digit c); [|done].
    pose proof (parse_number_no_budget (c :: r)). by destruct (parse_number (c :: r)).
  - intros s Hf. cbn [parse_elements].
    specialize (IHv s ltac:(lia)).
    destruct (parse_value fuel s) as [v r| |] eqn:Hv; simpl; try done.
    apply Sv in Hv. pose proof (skip_ws_length r) as Hws.
    destruct (skip_ws r) as [|c r']; [done|]. simpl in Hws.
    destruct (c =? 44).
    { specialize (IHe r' ltac:(lia)). by destruct (parse_elements fuel r'). }
    by destruct (c =? 93).
  - intros s Hf. cbn [parse_members].
    pose proof (skip_ws_length s) as Hws.
    destruct (expect 34 (skip_ws s)) as [r|] eqn:Hq; [|done].
    apply expect_length in Hq.
    pose proof (parse_string_body_no_budget r) as Hnb.
    destruct (parse_string_body r) as [k r1| |] eqn:Hk; simpl; try done.
    apply parse_string_body_shorter in Hk. pose proof (skip_ws_length r1) as Hws1.
    destruct (expect 58 (skip_ws r1)) as [r2|] eqn:Hc; [|done].
    apply expect_length in Hc.
    specialize (IHv r2 ltac:(lia)).
    destruct (parse_value fuel r2) as [v r3| |] eqn:Hv; simpl; try done.
    apply Sv in Hv. pose proof (skip_ws_length r3) as Hws3.
    destruct (skip_ws r3) as [|c r4]; [done|]. simpl in Hws3.
    destruct (c =? 44).
    { specialize (IHm r4 ltac:(lia)). by destruct (parse_members fuel r4). }
    by destruct (c =? 125).
Qed.

(** The budget [JSON.parse] passes is never used up: [None] from it
    always stands for a syntax error. *)
Lemma parse_within_budget (text : jsstring) :
  parse_value (S (2 * length text)) text <> OutOfFuel.
Proof. apply parse_budget. lia. Qed.

End ParseBudget.

(** * Further properties of the code *)

(** ** applyPatch: what a patch touches and how patches compose *)

(** [applyPatch] as data, case by case. *)
Lemma applyPatch_cases (t : UITree) (patch : Patch) :
  applyPatch t patch
  = if is_str (path patch) (js "/root") then
      Ok {| root := value patch; elements := elements t |}
    else
      b <- path_startsWith (path patch) (js "/elements/") ;;
      let key := path_key (path patch) (length (js "/elements/")) in
      if b && (truthy (VStr key)
               && (is_str (op patch) (js "set") || is_str (op patch) (js "add")))
      then Ok {| root := root t; elements := fst (assign (elements t) key (value patch)) |}
      else Ok t.
Proof.
  unfold applyPatch, applyPatch_object. cbn [root elements].
  destruct (is_str (path patch) (js "/root")); [done|].
  destruct (path_startsWith _ _) as [[|]|]; cbn [bind andb fst]; try done.
  - destruct (truthy _ && _); cbn [bind fst]; [|by rewrite tree_eta].
    by destruct (assign _ _ _).
  - by rewrite tree_eta.
Qed.

(** A set or add patch on an [/elements/] path writes under the first
    segment after the prefix when that segment is not empty, and changes
    nothing otherwise; an op other than set and add changes nothing. *)
Lemma applyPatch_elements_path (t : UITree) (o k rest : jsstring) (v : jsvalue) :
  no_solidus k = true -> segment_end rest = true ->
  applyPatch t (mkPatch o (js "/elements/" ++ k ++ rest) v)
  = if truthy (VStr k) && set_or_add o
    then Ok {| root := root t; elements := fst (assign (elements t) k v) |}
    else Ok t.
Proof.
  intros Hk Hr. rewrite applyPatch_data, applyPatch_object_elements_path by done.
  by destruct (truthy (VStr k) && _).
Qed.

(** X1. Only the first path segment after [/elements/] is used: whatever
    follows the key behind a further solidus does not change the result. *)
Theorem applyPatch_first_segment_only
    (t : UITree) (o k rest : jsstring) (v : jsvalue) :
  no_solidus k = true ->
  applyPatch t (mkPatch o (js "/elements/" ++ k ++ 47%N :: rest) v)
  = applyPatch t (mkPatch o (js "/elements/" ++ k) v).
Proof.
  intros Hk. rewrite (applyPatch_elements_path t o k (47%N :: rest) v Hk eq_refl).
  rewrite <- (app_nil_r k) at 3.
  by rewrite (applyPatch_elements_path t o k [] v Hk eq_refl).
Qed.

Lemma applyPatch_first_segment_only_witness :
  no_solidus (js "card") = true /\
  applyPatch emptyTree (mkPatch (js "add") (js "/elements/" ++ js "card" ++ 47%N :: js "props/title") VNull)
  = applyPatch emptyTree (mkPatch (js "add") (js "/elements/" ++ js "card") VNull).
Proof.
  split; [reflexivity|].
  apply (applyPatch_first_segment_only emptyTree (js "add") (js "card") (js "props/title") VNull).
  reflexivity.
Defined.

(** An assignment leaves every own property under another key alone. *)
Lemma assign_other_key (els : gmap jsstring jsvalue) (key k : jsstring) (v : jsvalue) :
  k <> key -> fst (assign els key v) !! k = els !! k.
Proof.
  intros Hk. unfold assign. destruct (_ && _); cbn [fst]; [done|].
  by rewrite lookup_insert_ne.
Qed.

(** X2. What a patch can touch. When [applyPatch] returns, the path was a
    string. A [/root] patch leaves the own properties of the elements
    object as they were. Any other patch leaves the root as it was and
    every own property other than the one under its key; and when that key
    is not [__proto__], the elements object of the result has the prototype
    of an object literal and a read of any other key gives what it gives on
    a fresh copy of the input's elements. It throws exactly when the path
    is not a string, and then a TypeError. *)
Theorem applyPatch_frame (t : UITree) (patch : Patch) :
  match applyPatch_object t patch with
  | Ok o =>
      is_string (path patch) = true /\
      if is_str (path patch) (js "/root")
      then root (fst o) = value patch /\ elements (fst o) = elements t
           /\ snd o = ObjectPrototype
      else
        let key := path_key (path patch) (length (js "/elements/")) in
        root (fst o) = root t /\
        (forall k, k <> key -> elements (fst o) !! k = elements t !! k) /\
        (str_eqb key (js "__proto__") = false ->
         snd o = ObjectPrototype /\
         forall k, k <> key ->
           lookup_element (elements (fst o)) (snd o) k
           = lookup_element (elements t) ObjectPrototype k)
  | Throw e => is_string (path patch) = false /\ e = TypeError
  end.
Proof.
  unfold applyPatch_object.
  destruct (path patch) as [| | | |p| |] eqn:Hp;
    cbn [is_str path_startsWith bind is_string]; try done.
  destruct (str_eqb p (js "/root")); [done|].
  destruct (startsWith p (js "/elements/")); [|done].
  destruct (_ && _); [|done]. cbn [root elements].
  set (key := path_key (VStr p) (length (js "/elements/"))).
  pose proof (fun k => assign_other_key (elements t) key k (value patch)) as Hother.
  pose proof (assign_own (elements t) key (value patch)) as Hown.
  destruct (assign (elements t) key (value patch)) as [els pr]. cbn [fst snd root elements] in *.
  split; [done|]. split; [done|]. split; [intros k Hk; by apply Hother|].
  intros Hproto. specialize (Hown (or_introl Hproto)). injection Hown as -> ->.
  split; [done|]. intros k Hk. unfold lookup_element. by rewrite lookup_insert_ne.
Qed.

Lemma assign_twice (els : gmap jsstring jsvalue) (key : jsstring) (v : jsvalue) :
  fst (assign (fst (assign els key v)) key v) = fst (assign els key v).
Proof.
  unfold assign. destruct (str_eqb key (js "__proto__")), (els !! key) as [w|] eqn:Hw;
    cbn [andb fst]; rewrite ?Hw, ?lookup_insert_eq; cbn [andb fst];
    rewrite ?andb_false_r; cbn [fst]; try done; by rewrite insert_insert_eq.
Qed.

(** X3. Applying the same patch twice is the same as applying it once. *)
Theorem applyPatch_idempotent (t : UITree) (patch : Patch) :
  (t1 <- applyPatch t patch ;; applyPatch t1 patch) = applyPatch t patch.
Proof.
  rewrite (applyPatch_cases t).
  destruct (is_str (path patch) (js "/root")) eqn:Hroot.
  { cbn [bind]. rewrite applyPatch_cases, Hroot. done. }
  destruct (path_startsWith (path patch) (js "/elements/")) as [b|] eqn:Hpre;
    cbn [bind]; [|done].
  destruct (b && _) eqn:Hc; cbn [bind]; rewrite applyPatch_cases, Hroot, Hpre;
    cbn [bind root elements]; rewrite Hc; [|done].
  by rewrite assign_twice.
Qed.

(** Two patches one after the other, the second on the tree the first
    returned. *)
Lemma applyPatch_object_then (t : UITree) (p1 p2 : Patch) (t1 : UITree) (pr : prototype) :
  applyPatch_object t p1 = Ok (t1, pr) ->
  (o <- applyPatch_object t p1 ;; applyPatch_object (fst o) p2) = applyPatch_object t1 p2.
Proof. by intros ->. Qed.



(** X5. The patches that change nothing: a string path other than
    [/root] that does not begin with [/elements/], or an [/elements/] path
    with an op that is neither set nor add. *)
Theorem applyPatch_noop (t : UITree) (o v : jsvalue) (p : jsstring) :
  str_eqb p (js "/root") = false ->
  startsWith p (js "/elements/") = false
  \/ (is_str o (js "set") = false /\ is_str o (js "add") = false) ->
  applyPatch t {| op := o; path := VStr p; value := v |} = Ok t.
Proof.
  intros Hroot [Hpre | [Hset Hadd]].
  - by apply applyPatch_other_path.
  - destruct (startsWith p (js "/elements/")) eqn:Hpre.
    + by apply applyPatch_element_other_op.
    + by apply applyPatch_other_path.
Qed.

Lemma applyPatch_noop_witness :
  str_eqb (js "/elements") (js "/root") = false /\
  (startsWith (js "/elements") (js "/elements/") = false
   \/ (is_str (str "add") (js "set") = false /\ is_str (str "add") (js "add") = false)) /\
  applyPatch emptyTree {| op := str "add"; path := VStr (js "/elements"); value := VNull |}
  = Ok emptyTree.
Proof.
  split; [reflexivity|]. split; [left; reflexivity|].
  apply (applyPatch_noop emptyTree (str "add") VNull (js "/elements"));
    [reflexivity | left; reflexivity].
Defined.

(** ** parsePatch and the lines the loop keeps *)

Lemma trimStart_idem (s : jsstring) : trimStart (trimStart s) = trimStart s.
Proof.
  induction s as [|c s IH]; [done|]. simpl.
  destruct (is_trim_space c) eqn:Hc; [done|]. simpl. by rewrite Hc.
Qed.

Lemma trimStart_snoc (l : jsstring) (c : N) :
  is_trim_space c = false -> trimStart (l ++ [c]) = trimStart l ++ [c].
Proof.
  intros Hc. induction l as [|x l IH]; simpl; [by rewrite Hc|].
  by destruct (is_trim_space x).
Qed.

Lemma trimEnd_cons (c : N) (s : jsstring) :
  is_trim_space c = false -> trimEnd (c :: s) = c :: trimEnd s.
Proof.
  intros Hc. unfold trimEnd. simpl rev. rewrite trimStart_snoc by done.
  by rewrite rev_app_distr.
Qed.

Lemma trimEnd_idem (s : jsstring) : trimEnd (trimEnd s) = trimEnd s.
Proof. unfold trimEnd. by rewrite rev_involutive, trimStart_idem. Qed.

Lemma trimStart_trimEnd (s : jsstring) :
  trimStart s = s -> trimStart (trimEnd s) = trimEnd s.
Proof.
  destruct s as [|c s]; [done|]. simpl.
  destruct (is_trim_space c) eqn:Hc.
  - intros H. assert (Hlen : (length (trimStart s) <= length s)%nat).
    { clear. induction s as [|x s IH]; simpl; [lia|].
      destruct (is_trim_space x); simpl; lia. }
    rewrite H in Hlen. simpl in Hlen. lia.
  - intros _. rewrite trimEnd_cons by done. simpl. by rewrite Hc.
Qed.

Lemma trim_idem (s : jsstring) : trim (trim s) = trim s.
Proof.
  unfold trim. rewrite (trimStart_trimEnd (trimStart s)) by apply trimStart_idem.
  apply trimEnd_idem.
Qed.

Lemma parsePatch_trimmed (line : jsstring) : parsePatch (trim line) = parsePatch line.
Proof. unfold parsePatch. by rewrite trim_idem. Qed.

Lemma trimStart_spaces (ws s : jsstring) :
  forallb is_trim_space ws = true -> trimStart (ws ++ s) = trimStart s.
Proof.
  induction ws as [|c ws IH]; [done|]. simpl.
  intros [Hc Hws]%andb_prop. rewrite Hc. by apply IH.
Qed.

Lemma trimEnd_spaces (ws s : jsstring) :
  forallb is_trim_space ws = true -> trimEnd (s ++ ws) = trimEnd s.
Proof.
  intros Hws. unfold trimEnd. rewrite rev_app_distr, trimStart_spaces; [done|].
  rewrite forallb_forall in *. intros x Hx. apply Hws. by apply in_rev.
Qed.

Lemma trim_surrounding_spaces (ws1 ws2 s : jsstring) :
  forallb is_trim_space ws1 = true -> forallb is_trim_space ws2 = true ->
  trim (ws1 ++ s ++ ws2) = trim s.
Proof.
  intros H1 H2. unfold trim. rewrite trimStart_spaces by done.
  induction s as [|c s IH]; simpl.
  - rewrite <- (app_nil_r ws2), trimStart_spaces by done. done.
  - destruct (is_trim_space c); [exact IH|].
    change (c :: s ++ ws2) with ((c :: s) ++ ws2).
    by rewrite (trimEnd_spaces ws2 (c :: s)).
Qed.

(** X6. [parsePatch] does not see white space around a line: spaces,
    tabs, a carriage return left by a CRLF line end and the like, before
    or after the text, do not change its result; in particular it gives
    the same result on the trimmed line that the loop records. *)
Theorem parsePatch_ignores_surrounding_space (ws1 ws2 line : jsstring) :
  forallb is_trim_space ws1 = true -> forallb is_trim_space ws2 = true ->
  parsePatch (ws1 ++ line ++ ws2) = parsePatch line
  /\ parsePatch (trim line) = parsePatch line.
Proof.
  intros H1 H2. split; [|apply parsePatch_trimmed].
  unfold parsePatch. by rewrite trim_surrounding_spaces.
Qed.

Lemma parsePatch_ignores_surrounding_space_witness :
  forallb is_trim_space (js "  ") = true /\ forallb is_trim_space [13%N] = true /\
  parsePatch (js "  " ++ jsq "{'op':'set','path':'/root','value':'card'}" ++ [13%N])
  = parsePatch (jsq "{'op':'set','path':'/root','value':'card'}")
  /\ parsePatch (trim (jsq "{'op':'set','path':'/root','value':'card'}"))
     = parsePatch (jsq "{'op':'set','path':'/root','value':'card'}").
Proof.
  split; [reflexivity|]. split; [reflexivity|].
  apply (parsePatch_ignores_surrounding_space (js "  ") [13%N]
           (jsq "{'op':'set','path':'/root','value':'card'}")); reflexivity.
Defined.

Lemma apply_lines_app (t : UITree) (l1 l2 : list jsstring) :
  apply_lines t (l1 ++ l2) = (t' <- apply_lines t l1 ;; apply_lines t' l2).
Proof.
  revert t. induction l1 as [|l l1 IH]; intros t; simpl; [done|].
  destruct (truthy (parsePatch l)); [|apply IH].
  destruct (applyPatch t _); simpl; [apply IH | done].
Qed.

Lemma truthy_parsePatch (line : jsstring) :
  truthy (parsePatch line) = true ->
  trim line <> [] /\ startsWith (trim line) (js "//") = false /\
  JSON.parse (trim line) = Some (parsePatch line).
Proof.
  unfold parsePatch. cbn zeta.
  destruct (trim line) as [|c tl] eqn:Htrim; [done|]. cbn [truthy negb orb].
  destruct (startsWith (c :: tl) (js "//")); [done|].
  by destruct (JSON.parse (c :: tl)).
Qed.

Lemma applyPatch_ok_string (t t' : UITree) (patch : Patch) :
  applyPatch t patch = Ok t' -> is_string (path patch) = true.
Proof.
  rewrite applyPatch_cases.
  by destruct (path patch); cbn [is_str path_startsWith bind is_string].
Qed.

Lemma process_line_invariant (st st' : LoopState) (line : jsstring) :
  loop_invariant st -> process_line st line = Ok st' -> loop_invariant st'.
Proof.
  intros (Htree & Hkept & Hbuild). unfold process_line.
  destruct (truthy (parsePatch line)) eqn:Htruthy; [|by intros [= <-]].
  pose proof (applyPatch_data (currentTree st) (as_patch (parsePatch line))) as Happly.
  destruct (applyPatch_object (currentTree st) (as_patch (parsePatch line))) as [[t pr]|];
    [|done].
  cbn [bind fst snd]. intros [= <-]. unfold loop_invariant. cbn [tree currentTree streamLines].
  destruct (truthy_parsePatch line Htruthy) as (Hne & Hcomment & Hparse).
  split; [done|]. split.
  - apply Forall_app. split; [done|]. constructor; [|constructor].
    split; [apply trim_idem|]. split; [done|]. split; [done|].
    exists (parsePatch line). split; [done|]. split; [done|].
    by apply applyPatch_ok_string in Happly.
  - rewrite apply_lines_app, Hbuild. cbn [bind apply_lines].
    rewrite parsePatch_trimmed, Htruthy. by rewrite Happly.
Qed.

Lemma process_lines_invariant (lines : list jsstring) (st : LoopState) :
  loop_invariant st -> loop_invariant (fst (process_lines st lines)).
Proof.
  revert st. induction lines as [|l lines IH]; intros st Hinv; [done|]. simpl.
  destruct (process_line st l) as [st'|] eqn:Hl; [|done].
  apply IH. by eapply process_line_invariant.
Qed.

Lemma read_loop_invariant (chunks : list (list Byte.byte)) (st : LoopState) :
  loop_invariant st -> loop_invariant (fst (read_loop st chunks)).
Proof.
  revert st. induction chunks as [|c chunks IH]; intros st Hinv.
  - simpl. unfold flush. destruct (truthy _); [|done].
    destruct (process_line st (buffer st)) as [st'|] eqn:Hl; [|done].
    by eapply process_line_invariant.
  - simpl. unfold read_chunk.
    destruct (TextDecoder.decode (decoder st) c) as [d text].
    set (st0 := mkLoop _ _ _ _ _ _).
    assert (Hinv0 : loop_invariant st0) by exact Hinv.
    pose proof (process_lines_invariant
                  (removelast (split 10 (buffer st ++ text))) st0 Hinv0) as H1.
    destruct (process_lines st0 _) as [st1 [e|]]; [done|]. by apply IH.
Qed.

Lemma loop_init_invariant : loop_invariant loop_init.
Proof. repeat split. constructor. Qed.

(** X7. Replaying the recorded stream lines from the empty tree with
    [parsePatch] and [applyPatch] rebuilds the tree that [handleSubmit]
    published, whatever the response was and also when an exception ended
    the loop: the stream tab always accounts for the whole tree. *)
Theorem handleSubmit_replay (chunks : list (list Byte.byte)) :
  apply_lines emptyTree (final_streamLines (handleSubmit chunks))
  = Ok (final_tree (handleSubmit chunks)).
Proof.
  unfold handleSubmit.
  pose proof (read_loop_invariant chunks loop_init loop_init_invariant) as (Ht & _ & Hb).
  destruct (read_loop loop_init chunks) as [st e]. simpl in *. by rewrite Ht.
Qed.

(** X8. Every recorded stream line is a trimmed, non-empty line that is
    not a comment and is JSON text of a truthy value with a string
    [path]: nothing else reaches [streamLines]. *)
Theorem handleSubmit_streamLines_kept (chunks : list (list Byte.byte)) :
  Forall kept_line (final_streamLines (handleSubmit chunks)).
Proof.
  unfold handleSubmit.
  pose proof (read_loop_invariant chunks loop_init loop_init_invariant) as (_ & Hk & _).
  by destruct (read_loop loop_init chunks) as [st e].
Qed.

(** X9. A line that is JSON text of a truthy value without a string
    [path] (a number, a string, an array, an object that lacks the
    property) is not skipped: applying it throws a TypeError, the lines
    after it are never processed, and the state stays as the lines before
    it left it. *)
Theorem pathless_line_aborts (st : LoopState) (before after : list jsstring) (line : jsstring) :
  truthy (parsePatch line) = true ->
  is_string (get (parsePatch line) (js "path")) = false ->
  process_line st line = Throw TypeError /\
  process_lines st (before ++ line :: after)
  = match process_lines st before with
    | (st1, None) => (st1, Some TypeError)
    | (st1, Some e) => (st1, Some e)
    end.
Proof.
  intros Htruthy Hpath.
  assert (Hline : forall st0, process_line st0 line = Throw TypeError).
  { intros st0. unfold process_line. rewrite Htruthy. unfold applyPatch, as_patch.
    cbn [path]. by destruct (get (parsePatch line) (js "path")). }
  split; [apply Hline|]. rewrite process_lines_app.
  destruct (process_lines st before) as [st1 [e|]]; [done|]. simpl. by rewrite Hline.
Qed.

Lemma pathless_line_aborts_witness :
  truthy (parsePatch (jsq "{'op':'add','value':1}")) = true /\
  is_string (get (parsePatch (jsq "{'op':'add','value':1}")) (js "path")) = false /\
  process_line loop_init (jsq "{'op':'add','value':1}") = Throw TypeError /\
  process_lines loop_init
    ([js "// start"] ++ jsq "{'op':'add','value':1}"
       :: [jsq "{'op':'set','path':'/root','value':'a'}"])
  = match process_lines loop_init [js "// start"] with
    | (st1, None) => (st1, Some TypeError)
    | (st1, Some e) => (st1, Some e)
    end.
Proof.
  split; [reflexivity|]. split; [reflexivity|].
  apply (pathless_line_aborts loop_init [js "// start"]
           [jsq "{'op':'set','path':'/root','value':'a'}"] (jsq "{'op':'add','value':1}"));
    reflexivity.
Defined.

(** ** The end of the response *)

Lemma split_snoc_sep (sep : N) (s : jsstring) : split sep (s ++ [sep]) = split sep s ++ [[]].
Proof.
  induction s as [|c s IH]; simpl; [by rewrite N.eqb_refl|].
  destruct (N.eqb c sep); [by rewrite IH|].
  rewrite IH. pose proof (split_nonempty sep s). by destruct (split sep s).
Qed.

Lemma outcome_agree (r1 r2 : LoopState * option exn) :
  agree r1 r2 ->
  (let '(st, e) := r1 in mkOutcome (tree st) (streamLines st) e (elementsProto st))
  = (let '(st, e) := r2 in mkOutcome (tree st) (streamLines st) e (elementsProto st)).
Proof.
  destruct r1 as [s1 e1], r2 as [s2 e2]. unfold agree, view. simpl.
  intros [-> Hv]. by injection Hv as _ -> -> ->.
Qed.

Lemma decode_line_feed (d : TextDecoder.decoder) :
  TextDecoder.bytes_needed d = 0%N ->
  exists d', TextDecoder.decode d [Byte.x0a] = (d', [10%N]).
Proof.
  intros H. destruct d as [cp seen needed lo up bom]. simpl in H. subst needed.
  destruct bom; eexists; reflexivity.
Qed.

(** X10. A newline after the last line is optional: unless the bytes end
    in the middle of a multi-byte character, the response followed by one
    more line feed gives the tree, the stream lines and the exception that
    the response alone gives. *)
Theorem handleSubmit_final_newline (chunks : list (list Byte.byte)) :
  TextDecoder.bytes_needed (fst (TextDecoder.decode TextDecoder.init (concat chunks))) = 0%N ->
  handleSubmit (chunks ++ [[Byte.x0a]]) = handleSubmit chunks.
Proof.
  intros Hpending. unfold handleSubmit. apply outcome_agree.
  eapply agree_trans; [apply (read_loop_text _ loop_init eq_refl)|].
  eapply agree_trans; [|apply agree_sym, (read_loop_text _ loop_init eq_refl)].
  rewrite concat_app. simpl concat. rewrite decode_app. cbn [decoder loop_init].
  destruct (TextDecoder.decode TextDecoder.init (concat chunks)) as [d text].
  simpl in Hpending. destruct (decode_line_feed d Hpending) as [d' ->].
  unfold consume_text. cbn [buffer loop_init]. rewrite !app_nil_l.
  rewrite split_snoc_sep.
  set (L := split 10 text).
  assert (HL : L = removelast L ++ [default [] (last L)]).
  { pose proof (split_nonempty 10 text) as Hne. fold L in Hne. clearbody L.
    induction L as [|x [|y L'] IH]; [done|done|].
    rewrite removelast_cons, last_cons_nonempty by done. simpl. f_equal. by apply IH. }
  rewrite removelast_app_nonempty, last_app_nonempty by done. simpl removelast.
  rewrite app_nil_r. rewrite HL at 1. rewrite process_lines_app.
  destruct (process_lines loop_init (removelast L)) as [st1 [e|]]; [done|].
  set (b := default [] (last L)). simpl process_lines. unfold flush. cbn [buffer with_io].
  assert (Hv : view (with_io st1 d b) = view st1) by done.
  pose proof (process_line_view (with_io st1 d b) st1 b Hv) as Hline.
  destruct (truthy (VStr (trim b))) eqn:Hb.
  - destruct (process_line (with_io st1 d b) b) as [s1|e1],
             (process_line st1 b) as [s2|e2]; try done.
    + destruct Hline as (Hv' & _). split; [done|]. exact (eq_sym Hv').
    + by subst.
  - assert (Hnull : parsePatch b = VNull).
    { unfold parsePatch. cbn zeta. by rewrite Hb. }
    unfold process_line at 1. by rewrite Hnull.
Qed.

Lemma handleSubmit_final_newline_witness :
  TextDecoder.bytes_needed
    (fst (TextDecoder.decode TextDecoder.init
            (concat [bytesq "{'op':'set','path':'/root','value':'card'}"]))) = 0%N /\
  handleSubmit ([bytesq "{'op':'set','path':'/root','value':'card'}"] ++ [[Byte.x0a]])
  = handleSubmit [bytesq "{'op':'set','path':'/root','value':'card'}"].
Proof.
  split; [reflexivity|].
  apply (handleSubmit_final_newline [bytesq "{'op':'set','path':'/root','value':'card'}"]).
  reflexivity.
Defined.

(** ** renderElement: errors, depth and what it looks at *)

Section RenderMore.

Variable ToString : jsvalue -> result jsstring.
Variable renderLeaf : jsvalue -> result node.
Variable proto : prototype.

Local Abbreviation render := (renderElement ToString renderLeaf proto).

Lemma map_keys_mono (f g : jsvalue -> rendering) els keys r :
  (forall c r', f c = Some r' -> g c = Some r') ->
  map_keys ToString proto f els keys = Some r ->
  map_keys ToString proto g els keys = Some r.
Proof.
  intros H. revert r. induction keys as [|k keys IH]; intros r; [done|]. simpl.
  destruct (element_at ToString proto els k) as [child|]; [|done].
  assert (Hchild : forall r',
            (if member_truthy child then render_member f child else Some (Ok NNull))
            = Some r' ->
            (if member_truthy child then render_member g child else Some (Ok NNull))
            = Some r').
  { destruct child as [c|]; cbn [member_truthy render_member]; [|done].
    destruct (truthy c); [apply H | done]. }
  destruct (if member_truthy child then render_member f child else Some (Ok NNull))
    as [[n|e]|] eqn:Hf; [| |done].
  - rewrite (Hchild _ eq_refl).
    destruct (map_keys ToString proto f els keys) as [[ns|e]|] eqn:Hm; [| |done].
    + by rewrite (IH _ eq_refl).
    + by rewrite (IH _ eq_refl).
  - by rewrite (Hchild _ eq_refl).
Qed.

Lemma renderChildren_mono (f g : jsvalue -> rendering) els ck r :
  (forall c r', f c = Some r' -> g c = Some r') ->
  renderChildren_with ToString proto f els ck = Some r ->
  renderChildren_with ToString proto g els ck = Some r.
Proof.
  intros H. destruct ck; try done. simpl. by apply map_keys_mono.
Qed.

Lemma render_step (d1 d2 : nat) (element : jsvalue) (els : gmap jsstring jsvalue) r :
  (forall c r', render d1 c els = Some r' -> render d2 c els = Some r') ->
  render (S d1) element els = Some r -> render (S d2) element els = Some r.
Proof.
  intros IH. cbn [renderElement].
  destruct (customClass_of ToString (get element (js "props"))) as [cc|]; [|done].
  set (rc1 := renderChildren_with ToString proto (fun child => render d1 child els) els
                (childKeys_of element)).
  set (rc2 := renderChildren_with ToString proto (fun child => render d2 child els) els
                (childKeys_of element)).
  assert (Hrc : forall x, rc1 = Some x -> rc2 = Some x).
  { intros x. apply renderChildren_mono. exact IH. }
  repeat match goal with
         | |- context [if ?b then _ else _] =>
             match b with
             | is_str (get element (js "type")) _ => destruct b
             | type_in (get element (js "type")) _ => destruct b
             end
         end; try done;
    destruct rc1 as [[ns|e]|]; try done; by rewrite (Hrc _ eq_refl).
Qed.

(** The depth bound of the model is adequate: a rendering that completes
    within a call depth is the rendering at every greater depth, so the
    bound only cuts off what has not finished and never changes a
    result. *)
Lemma renderElement_depth_monotone
    (depth extra : nat) (element : jsvalue) (els : gmap jsstring jsvalue) (r : result node) :
  render depth element els = Some r -> render (depth + extra) element els = Some r.
Proof.
  assert (Hstep : forall d c r', render d c els = Some r' -> render (S d) c els = Some r').
  { induction d as [|d IH]; intros c r'; [done|]. by apply render_step. }
  intros H. induction extra as [|extra IH].
  - by rewrite Nat.add_0_r.
  - rewrite Nat.add_succ_r. by apply Hstep.
Qed.

(** X12. An element without props (or with null props) cannot be
    rendered, whatever its type, a type outside the catalog included:
    reading [props.className] throws before the switch is reached. The
    exception passes through a container that has the element as its first
    child. *)
Theorem renderElement_missing_props
    (depth : nat) (element parent : jsvalue) (els : gmap jsstring jsvalue)
    (ty k : jsstring) (keys : list jsvalue) :
  get element (js "props") = VUndefined \/ get element (js "props") = VNull ->
  truthy element = true ->
  els !! k = Some element ->
  get parent (js "type") = VStr ty -> in_list ty container_kinds = true ->
  well_typed_props (get parent (js "props")) = true ->
  get parent (js "children") = VArr (VStr k :: keys) ->
  render (S depth) element els = Some (Throw TypeError) /\
  render (S (S depth)) parent els = Some (Throw TypeError).
Proof.
  intros Hprops Htruthy Hk Hty Hcont Hwt Hch.
  assert (He : forall d, render (S d) element els = Some (Throw TypeError)).
  { intros d. cbn [renderElement]. by destruct Hprops as [-> | ->]. }
  split; [apply He|].
  destruct (container_renders_children ToString renderLeaf proto (S depth) parent els ty
              Hty Hcont Hwt) as (wrap & _ & ->).
  unfold childKeys_of. rewrite Hch. cbn [renderChildren_with map_keys element_at].
  unfold lookup_element. rewrite Hk. cbn [member_truthy render_member].
  by rewrite Htruthy, He.
Qed.




(** X16. [renderPreview] never returns null: the test that guards its
    [return null] repeats a test that has already sent the function to the
    placeholder, so what it returns without throwing is always an
    element. *)
Theorem renderPreview_never_null
    (depth : nat) (currentTree : option UITree) (isLoading actionFired : bool) (n : node) :
  renderPreview ToString renderLeaf proto depth currentTree isLoading actionFired
  = Some (Ok n) ->
  exists tag key cls children, n = NElement tag key cls children.
Proof.
  unfold renderPreview, waiting. destruct currentTree as [t|].
  - destruct (negb (truthy (root t))); [intros [= <-]; by do 4 eexists|].
    destruct (element_at ToString proto (elements t) (root t)) as [re|]; [|done].
    destruct (negb (member_truthy re)); [intros [= <-]; by do 4 eexists|].
    destruct (render_member _ re) as [[m|]|]; try done.
    intros [= <-]. by do 4 eexists.
  - intros [= <-]. by do 4 eexists.
Qed.

Lemma ends_with_refl (s : jsstring) : exists pre, s = pre ++ s.
Proof. by exists []. Qed.

Lemma ends_with_app (a s suffix : jsstring) :
  (exists pre, s = pre ++ suffix) -> exists pre, a ++ s = pre ++ suffix.
Proof. intros [pre ->]. exists (a ++ pre). by rewrite app_assoc. Qed.

Lemma node_classes_end key (cls suffix : jsstring) children :
  (exists pre, cls = pre ++ suffix) ->
  exists pre children', NElement "div" key cls children
                        = NElement "div" key (pre ++ suffix) children'.
Proof. intros [pre ->]. by exists pre, children. Qed.

Local Opaque js baseClass sp.

(** X17. Whatever a container kind or the placeholder renders is a div
    that carries the element's key and whose class list ends with the base
    classes followed by the custom classes of the element, so that custom
    classes always come last. *)
Theorem renderElement_key_and_classes
    (depth : nat) (element : jsvalue) (els : gmap jsstring jsvalue) (n : node) :
  type_in (get element (js "type")) leaf_kinds = false ->
  render (S depth) element els = Some (Ok n) ->
  exists customClass,
    customClass_of ToString (get element (js "props")) = Ok customClass /\
    exists cls children,
      n = NElement "div" (get element (js "key"))
            (cls ++ baseClass ++ sp ++ customClass) children.
Proof.
  intros Hleaf. cbn [renderElement]. rewrite Hleaf.
  destruct (customClass_of ToString (get element (js "props"))) as [cc|]; [|done].
  intros H. exists cc. split; [done|]. revert H.
  destruct (is_str (get element (js "type")) (js "Card")).
  { destruct (renderChildren_with _ _ _ _) as [[ns|]|]; [|done|done]. intros [= <-].
    apply node_classes_end.
    repeat (first [apply ends_with_refl | apply ends_with_app]). }
  destruct (is_str (get element (js "type")) (js "Stack")).
  { destruct (renderChildren_with _ _ _ _) as [[ns|]|]; [|done|done]. intros [= <-].
    apply node_classes_end.
    repeat (first [apply ends_with_refl | apply ends_with_app]). }
  destruct (is_str (get element (js "type")) (js "Grid")).
  { destruct (renderChildren_with _ _ _ _) as [[ns|]|]; [|done|done]. intros [= <-].
    apply node_classes_end.
    repeat (first [apply ends_with_refl | apply ends_with_app]). }
  destruct (is_str (get element (js "type")) (js "Form")).
  { destruct (renderChildren_with _ _ _ _) as [[ns|]|]; [|done|done]. intros [= <-].
    apply node_classes_end.
    repeat (first [apply ends_with_refl | apply ends_with_app]). }
  intros [= <-]. apply node_classes_end.
    repeat (first [apply ends_with_refl | apply ends_with_app]).
Qed.

Local Transparent js baseClass sp.

End RenderMore.

Lemma renderElement_missing_props_witness :
  let element := obj [("key", str "x"); ("type", str "Chart")]%string in
  let parent := card_element ["x"]%string in
  let els : gmap jsstring jsvalue := <[js "x" := element]> ∅ in
  (get element (js "props") = VUndefined \/ get element (js "props") = VNull) /\
  renderElement sample_ToString sample_leaf ObjectPrototype 1 element els = Some (Throw TypeError) /\
  renderElement sample_ToString sample_leaf ObjectPrototype 2 parent els = Some (Throw TypeError).
Proof.
  intros element parent els. split; [left; reflexivity|].
  apply (renderElement_missing_props sample_ToString sample_leaf ObjectPrototype 0 element parent els
           (js "Card") (js "x") []); try reflexivity. left; reflexivity.
Defined.



Lemma renderPreview_never_null_witness :
  renderPreview sample_ToString sample_leaf ObjectPrototype 0 None true false = Some (Ok (waiting true)) /\
  exists tag key cls children, waiting true = NElement tag key cls children.
Proof.
  split; [reflexivity|].
  apply (renderPreview_never_null sample_ToString sample_leaf ObjectPrototype 0 None true false). reflexivity.
Defined.

Lemma renderElement_key_and_classes_witness :
  let element := card_element []%string in
  type_in (get element (js "type")) leaf_kinds = false /\
  exists n,
    renderElement sample_ToString sample_leaf ObjectPrototype 1 element ∅ = Some (Ok n) /\
    exists customClass,
      customClass_of sample_ToString (get element (js "props")) = Ok customClass /\
      exists cls children,
        n = NElement "div" (get element (js "key"))
              (cls ++ baseClass ++ sp ++ customClass) children.
Proof.
  intros element. split; [reflexivity|]. eexists. split; [by vm_compute|].
  apply (renderElement_key_and_classes sample_ToString sample_leaf ObjectPrototype 0 element ∅);
    by vm_compute.
Defined.

(** ** The prompt the route passes on *)

(** What [sanitizedPrompt] is for each kind of prompt. *)
Lemma sanitizedPrompt_cut (ToString : jsvalue -> result jsstring) (prompt : jsvalue) :
  match sanitizedPrompt ToString prompt with
  | Ok s =>
      (length s <= MAX_PROMPT_LENGTH)%nat /\
      (truthy prompt = false -> s = []) /\
      (forall p, prompt = VStr p ->
         s = take MAX_PROMPT_LENGTH p /\ ((length p <= MAX_PROMPT_LENGTH)%nat -> s = p))
  | Throw _ => truthy prompt = true /\ is_string prompt = false
  end.
Proof.
  unfold sanitizedPrompt. destruct (truthy prompt) eqn:Ht.
  - destruct prompt as [| | | |p| |]; cbn [String_of bind is_string]; try done;
      try (destruct (ToString _) as [s|]; cbn [bind]; [|done];
           split; [rewrite length_take; lia|]; split; done).
    split; [rewrite length_take; lia|]. split; [done|].
    intros p' [= <-]. split; [done|]. intros Hlen. by apply take_ge.
  - cbn [String_of bind]. split; [simpl; lia|]. split; [done|].
    intros p ->. destruct p; [|done]. split; [done|]. done.
Qed.

(** X18. The prompt the route hands to the model has at most 140 code
    units. A string prompt is cut to its first 140 code units, so a prompt
    within the limit passes unchanged; a missing or otherwise falsy prompt
    becomes the empty string; and nothing is thrown unless the body is null
    or the prompt is a truthy value that is not a string. *)
Theorem POST_prompt_bounded (ToString : jsvalue -> result jsstring) (body : jsvalue) :
  let prompt := get body (js "prompt") in
  match POST_prompt ToString body with
  | Ok s =>
      (length s <= MAX_PROMPT_LENGTH)%nat /\
      (truthy prompt = false -> s = []) /\
      (forall p, prompt = VStr p ->
         s = take MAX_PROMPT_LENGTH p /\ ((length p <= MAX_PROMPT_LENGTH)%nat -> s = p))
  | Throw e =>
      body = VUndefined \/ body = VNull \/
      (truthy prompt = true /\ is_string prompt = false)
  end.
Proof.
  intros prompt. unfold prompt.
  pose proof (sanitizedPrompt_cut ToString (get body (js "prompt"))) as H.
  destruct body; cbn [POST_prompt]; try (by left); try (by right; left);
    (destruct (sanitizedPrompt ToString _); [exact H | right; right; exact H]).
Qed.

(** ** handleSubmit from the guard to the finally block *)

Lemma read_loop_chunks (chunks : list (list Byte.byte)) (st : LoopState) :
  read_loop st chunks
  = match read_chunks st chunks with
    | (st', None) => flush st'
    | (st', Some e) => (st', Some e)
    end.
Proof.
  revert st. induction chunks as [|c chunks IH]; intros st; simpl; [done|].
  destruct (read_chunk st c) as [st' [e|]]; [done | apply IH].
Qed.

Lemma read_chunks_invariant (chunks : list (list Byte.byte)) (st : LoopState) :
  loop_invariant st -> loop_invariant (fst (read_chunks st chunks)).
Proof.
  revert st. induction chunks as [|c chunks IH]; intros st Hinv; [done|].
  simpl. unfold read_chunk.
  destruct (TextDecoder.decode (decoder st) c) as [d text].
  set (st0 := mkLoop _ _ _ _ _ _).
  assert (Hinv0 : loop_invariant st0) by exact Hinv.
  pose proof (process_lines_invariant
                (removelast (split 10 (buffer st ++ text))) st0 Hinv0) as H1.
  destruct (process_lines st0 _) as [st1 [e|]]; [done|]. by apply IH.
Qed.

Lemma flush_invariant (st : LoopState) :
  loop_invariant st -> loop_invariant (fst (flush st)).
Proof.
  intros Hinv. unfold flush. destruct (truthy _); [|done].
  destruct (process_line st (buffer st)) as [st'|] eqn:Hl; [|done].
  by eapply process_line_invariant.
Qed.

(** The loop state [handleSubmit_request] ends with. *)
Lemma request_loop_invariant (resp : response) :
  match resp with
  | Body chunks ending =>
      loop_invariant (fst (read_chunks loop_init chunks)) /\
      loop_invariant (fst (flush (fst (read_chunks loop_init chunks))))
  | _ => True
  end.
Proof.
  destruct resp as [| | |chunks ending]; try done.
  pose proof (read_chunks_invariant chunks loop_init loop_init_invariant) as H.
  split; [done | by apply flush_invariant].
Qed.

(** X19. Once [handleSubmit] has started a request (the prompt is not
    blank and nothing is loading), then however the response goes the
    loading flag ends false, an abort is never logged, mode, phase and
    prompts are untouched, and the tree that was shown before is gone: the
    tree left is the one the new stream lines build from the empty tree,
    which is the empty tree when the request fails before any line. A blank
    prompt or a request in flight makes the call do nothing. *)
Theorem handleSubmit_request_settles (st : Demo.State) (resp : response) :
  let '(st', logged) := Demo.handleSubmit_request st resp in
  if negb (truthy (VStr (trim (Demo.userPrompt st)))) || Demo.isLoading st
  then st' = st /\ logged = None
  else
    Demo.isLoading st' = false /\
    logged <> Some AbortError /\
    (Demo.mode st', Demo.phase st', Demo.typedPrompt st', Demo.userPrompt st', Demo.stageIndex st')
    = (Demo.mode st, Demo.phase st, Demo.typedPrompt st, Demo.userPrompt st, Demo.stageIndex st) /\
    (exists t, Demo.tree st' = Some t /\
               apply_lines emptyTree (Demo.streamLines st') = Ok t) /\
    (match resp with
     | Body _ _ => True
     | _ => Demo.tree st' = Some emptyTree /\ Demo.streamLines st' = [] /\
            (logged = None <-> resp = FetchRejects true)
     end).
Proof.
  unfold Demo.handleSubmit_request.
  destruct (negb _ || _); [done|].
  pose proof (request_loop_invariant resp) as Hinv.
  destruct resp as [[|]| | |chunks ending]; cbn [Demo.isLoading Demo.tree Demo.streamLines
    Demo.mode Demo.phase Demo.typedPrompt Demo.userPrompt Demo.stageIndex];
    try (repeat split; try done; try (by eexists); try (intros [_ H]; discriminate H);
         intros H; discriminate H).
  destruct Hinv as [(Ht1 & _ & Hb1) (Ht2 & _ & Hb2)].
  destruct (read_chunks loop_init chunks) as [loop [e|]].
  { simpl in *. repeat split; try done. exists (tree loop). by rewrite Ht1. }
  destruct ending as [|[|]].
  - simpl in Ht2, Hb2. destruct (flush loop) as [loop' [e|]];
      simpl in *; repeat split; try done; exists (tree loop'); by rewrite Ht2.
  - simpl in *. repeat split; try done. exists (tree loop). by rewrite Ht1.
  - simpl in *. repeat split; try done. exists (tree loop). by rewrite Ht1.
Qed.

(** How the two embeddings of the reader loop fit together: for a body
    that is read to its end, what [handleSubmit_request] leaves in the
    state is the outcome of [handleSubmit] on the chunks; when reading the
    body fails instead, the code after the loop does not run and the state
    holds what the while loop alone built. *)
Lemma handleSubmit_request_body
    (st : Demo.State) (chunks : list (list Byte.byte)) (aborted : bool) :
  negb (truthy (VStr (trim (Demo.userPrompt st)))) || Demo.isLoading st = false ->
  (let '(st', logged) := Demo.handleSubmit_request st (Body chunks ReadDone) in
   Demo.tree st' = Some (final_tree (handleSubmit chunks)) /\
   Demo.streamLines st' = final_streamLines (handleSubmit chunks) /\
   (logged = None <-> caught (handleSubmit chunks) = None)) /\
  (let '(st', logged) := Demo.handleSubmit_request st (Body chunks (ReadRejects aborted)) in
   Demo.tree st' = Some (tree (fst (read_chunks loop_init chunks))) /\
   Demo.streamLines st' = streamLines (fst (read_chunks loop_init chunks)) /\
   (logged = None <-> aborted = true /\ snd (read_chunks loop_init chunks) = None)).
Proof.
  intros Hguard. unfold Demo.handleSubmit_request, handleSubmit. rewrite Hguard.
  rewrite read_loop_chunks.
  destruct (read_chunks loop_init chunks) as [loop [e|]]; simpl.
  - repeat split; try done. by intros [_ H].
  - split.
    + by destruct (flush loop) as [loop' [e|]].
    + destruct aborted; repeat split; try done. by intros [H _].
Qed.

(** The lost last line: the same body read to its end sets the root to
    b, and sets it to a when the read fails after the chunk. *)
Example handleSubmit_request_lost_line :
  let st := Demo.mkState interactive complete SIMULATION_PROMPT (js "a form") 4 [] false None
              false ObjectPrototype in
  let chunks := [bytesq "{'op':'set','path':'/root','value':'a'}
{'op':'set','path':'/root','value':'b'}"] in
  (root <$> Demo.tree (fst (Demo.handleSubmit_request st (Body chunks ReadDone))))
  = Some (str "b") /\
  (root <$> Demo.tree (fst (Demo.handleSubmit_request st (Body chunks (ReadRejects false)))))
  = Some (str "a").
Proof. by vm_compute. Qed.

(** ** The scripted simulation and the stop button *)

Lemma typing_ticks_from (n i : nat) (st : Demo.State) :
  (i + S n <= length SIMULATION_PROMPT)%nat ->
  Demo.ticks Demo.typing_tick (S n) i st
  = (i + S n, with_typedPrompt st (take (i + S n) SIMULATION_PROMPT), false)%nat.
Proof.
  revert i st. induction n as [|n IH]; intros i st Hle.
  - cbn [Demo.ticks]. unfold Demo.typing_tick.
    destruct (Nat.ltb_spec i (length SIMULATION_PROMPT)); [|lia].
    by rewrite Nat.add_1_r.
  - cbn [Demo.ticks] in *. unfold Demo.typing_tick at 1.
    destruct (Nat.ltb_spec i (length SIMULATION_PROMPT)); [|lia].
    rewrite IH by lia. by replace (S i + S n)%nat with (i + S (S n))%nat by lia.
Qed.

(** X21. The typing effect shows, after its n-th tick, the first n code
    units of the scripted prompt, for every n up to the prompt's length;
    the tick after the last code unit changes nothing, clears the interval
    and hands over to the streaming phase, and later ticks never come. *)
Theorem typing_effect_ticks (n extra : nat) (st : Demo.State) :
  (1 <= n <= length SIMULATION_PROMPT)%nat ->
  Demo.ticks Demo.typing_tick n 0 st
  = (n, with_typedPrompt st (take n SIMULATION_PROMPT), false) /\
  Demo.ticks Demo.typing_tick (length SIMULATION_PROMPT + S extra) 0 st
  = (length SIMULATION_PROMPT, with_typedPrompt st SIMULATION_PROMPT, true).
Proof.
  intros [H1 Hn]. split.
  - destruct n as [|n]; [lia|]. by rewrite typing_ticks_from.
  - assert (Hsplit : forall m k i s,
              Demo.ticks Demo.typing_tick (m + k) i s
              = match Demo.ticks Demo.typing_tick m i s with
                | (i', s', true) => (i', s', true)
                | (i', s', false) => Demo.ticks Demo.typing_tick k i' s'
                end).
    { induction m as [|m IH]; intros k i s; [done|]. cbn [Nat.add Demo.ticks].
      destruct (Demo.typing_tick i s) as [[i' s'] [|]]; [done | apply IH]. }
    rewrite Hsplit.
    change (length SIMULATION_PROMPT) with (S (pred (length SIMULATION_PROMPT))) at 1.
    rewrite typing_ticks_from by (simpl; lia).
    cbn [Demo.ticks]. unfold Demo.typing_tick.
    replace (0 + S (pred (length SIMULATION_PROMPT)))%nat with (length SIMULATION_PROMPT) by done.
    rewrite Nat.ltb_irrefl. by rewrite take_ge by lia.
Qed.

Lemma typing_effect_ticks_witness :
  (1 <= 6 <= length SIMULATION_PROMPT)%nat /\
  Demo.ticks Demo.typing_tick 6 0 Demo.initial
  = (6%nat, with_typedPrompt Demo.initial (take 6 SIMULATION_PROMPT), false) /\
  Demo.ticks Demo.typing_tick (length SIMULATION_PROMPT + S 3) 0 Demo.initial
  = (length SIMULATION_PROMPT, with_typedPrompt Demo.initial SIMULATION_PROMPT, true).
Proof.
  split; [simpl; lia|].
  apply (typing_effect_ticks 6 3 Demo.initial). simpl; lia.
Defined.

(** X22. The streaming effect has revealed, after its n-th tick, the
    first n scripted stages: the stage index points at stage n, the stream
    lines have grown by the first n scripted lines, and the tree state is
    the tree recorded with stage n, which is also the tree the preview
    shows. The tick after the last stage changes nothing and clears the
    interval. *)
Theorem stream_effect_ticks (n extra : nat) (st : Demo.State) :
  (1 <= n <= length SIMULATION_STAGES)%nat ->
  Demo.ticks Demo.stream_tick n 0 st = (n, with_stages st n, false) /\
  synced (with_stages st n) /\
  Demo.ticks Demo.stream_tick (length SIMULATION_STAGES + S extra) 0 st
  = (length SIMULATION_STAGES, with_stages st (length SIMULATION_STAGES), true).
Proof.
  intros [H1 Hn]. split; [|split].
  - destruct n as [|[|[|[|[|[|n]]]]]]; try (simpl in Hn; lia);
      cbn; rewrite <- ?app_assoc; reflexivity.
  - destruct n as [|[|[|[|[|[|n]]]]]]; try (simpl in Hn; lia); split; reflexivity.
  - cbn. rewrite <- ?app_assoc. reflexivity.
Qed.

Lemma stream_effect_ticks_witness :
  (1 <= 3 <= length SIMULATION_STAGES)%nat /\
  Demo.ticks Demo.stream_tick 3 0 Demo.initial = (3%nat, with_stages Demo.initial 3, false) /\
  synced (with_stages Demo.initial 3) /\
  Demo.ticks Demo.stream_tick (length SIMULATION_STAGES + S 2) 0 Demo.initial
  = (length SIMULATION_STAGES, with_stages Demo.initial (length SIMULATION_STAGES), true).
Proof.
  split; [simpl; lia|].
  apply (stream_effect_ticks 3 2 Demo.initial). simpl; lia.
Defined.

Lemma stage_lookup_index (i : nat) (stage : SimulationStage) :
  SIMULATION_STAGES !! i = Some stage ->
  currentSimulationStage (Z.of_nat i) = Some stage.
Proof.
  intros H. unfold currentSimulationStage.
  destruct (Z.leb_spec 0 (Z.of_nat i)); [|lia]. by rewrite Nat2Z.id.
Qed.

(** X23. Leaving the simulation does not change what is shown. That the
    tree state is the tree of the stage the index points at holds in the
    initial state and is kept by every callback of the two effects and by
    the stop button; and in a state where it holds, the stop button and the
    end of the streaming effect switch to interactive mode with the
    preview showing the same tree, on an elements object with the same
    prototype, as before. *)
Theorem preview_survives_switch (st : Demo.State) (i : nat) :
  synced Demo.initial /\
  (synced st ->
   synced (Demo.typing_tick i st).1.2 /\
   synced (Demo.typing_timeout st) /\
   synced (Demo.stream_tick i st).1.2 /\
   synced (Demo.stopGeneration st) /\
   synced (Demo.stream_timeout st) /\
   Demo.currentTree (Demo.stopGeneration st) = Demo.currentTree st /\
   Demo.currentProto (Demo.stopGeneration st) = Demo.currentProto st /\
   Demo.currentTree (Demo.stream_timeout st) = Demo.currentTree st /\
   Demo.currentProto (Demo.stream_timeout st) = Demo.currentProto st).
Proof.
  split; [by split|]. unfold synced. intros [Hs Hp]. repeat split.
  - unfold Demo.typing_tick. by destruct (_ <? _)%nat.
  - unfold Demo.typing_tick. by destruct (_ <? _)%nat.
  - done.
  - done.
  - unfold Demo.stream_tick. destruct (_ <? _)%nat; [|done]. cbn [fst snd].
    destruct (SIMULATION_STAGES !! i) as [stage|] eqn:Hi; [|done].
    cbn [Demo.tree Demo.stageIndex]. by rewrite (stage_lookup_index i stage Hi).
  - unfold Demo.stream_tick. destruct (_ <? _)%nat; [|done]. cbn [fst snd].
    by destruct (SIMULATION_STAGES !! i).
  - unfold Demo.stopGeneration. by destruct (Demo.mode st).
  - unfold Demo.stopGeneration. by destruct (Demo.mode st).
  - done.
  - done.
  - unfold Demo.currentTree, Demo.stopGeneration, currentTree_of.
    destruct st as [[|] ph tp up si sl af tr il pr];
      cbn [Demo.mode Demo.tree Demo.stageIndex] in *; done.
  - unfold Demo.currentProto, Demo.stopGeneration, currentProto_of.
    destruct st as [[|] ph tp up si sl af tr il pr];
      cbn [Demo.mode Demo.treeProto] in *; done.
  - unfold Demo.currentTree, Demo.stream_timeout, currentTree_of.
    destruct st as [[|] ph tp up si sl af tr il pr];
      cbn [Demo.mode Demo.tree Demo.stageIndex] in *; done.
  - unfold Demo.currentProto, Demo.stream_timeout, currentProto_of.
    destruct st as [[|] ph tp up si sl af tr il pr];
      cbn [Demo.mode Demo.treeProto] in *; done.
Qed.

Lemma preview_survives_switch_witness :
  synced (with_stages Demo.initial 2) /\
  synced Demo.initial /\
  synced (Demo.typing_tick 0 (with_stages Demo.initial 2)).1.2 /\
  synced (Demo.typing_timeout (with_stages Demo.initial 2)) /\
  synced (Demo.stream_tick 0 (with_stages Demo.initial 2)).1.2 /\
  synced (Demo.stopGeneration (with_stages Demo.initial 2)) /\
  synced (Demo.stream_timeout (with_stages Demo.initial 2)) /\
  Demo.currentTree (Demo.stopGeneration (with_stages Demo.initial 2))
  = Demo.currentTree (with_stages Demo.initial 2) /\
  Demo.currentProto (Demo.stopGeneration (with_stages Demo.initial 2))
  = Demo.currentProto (with_stages Demo.initial 2) /\
  Demo.currentTree (Demo.stream_timeout (with_stages Demo.initial 2))
  = Demo.currentTree (with_stages Demo.initial 2) /\
  Demo.currentProto (Demo.stream_timeout (with_stages Demo.initial 2))
  = Demo.currentProto (with_stages Demo.initial 2).
Proof.
  assert (H : synced (with_stages Demo.initial 2)) by (split; reflexivity).
  split; [exact H|].
  split; [exact (proj1 (preview_survives_switch (with_stages Demo.initial 2) 0))|].
  exact (proj2 (preview_survives_switch (with_stages Demo.initial 2) 0) H).
Defined.

(** X24. Nothing leads back to the simulation: from interactive mode
    every handler and every callback of the effects, also one that fires
    after the mode has changed, leaves the mode interactive; and in
    interactive mode the stop button changes nothing but the loading flag,
    which it clears. *)
Theorem mode_stays_interactive (st : Demo.State) (i : nat) (resp : response) :
  Demo.mode st = interactive ->
  Demo.mode (Demo.stopGeneration st) = interactive /\
  Demo.mode (Demo.typing_tick i st).1.2 = interactive /\
  Demo.mode (Demo.typing_timeout st) = interactive /\
  Demo.mode (Demo.stream_tick i st).1.2 = interactive /\
  Demo.mode (Demo.stream_timeout st) = interactive /\
  Demo.mode (Demo.handleSubmit_request st resp).1 = interactive /\
  Demo.stopGeneration st
  = Demo.mkState (Demo.mode st) (Demo.phase st) (Demo.typedPrompt st) (Demo.userPrompt st)
      (Demo.stageIndex st) (Demo.streamLines st) (Demo.actionFired st) (Demo.tree st) false
      (Demo.treeProto st).
Proof.
  destruct st as [[|] ph tp up si sl af tr il pr]; [done|]. intros _.
  split; [done|]. split.
  { unfold Demo.typing_tick. by destruct (_ <? _)%nat. }
  split; [done|]. split.
  { unfold Demo.stream_tick. destruct (_ <? _)%nat; [|done]. cbn [fst snd].
    by destruct (SIMULATION_STAGES !! i). }
  split; [done|]. split; [|done].
  unfold Demo.handleSubmit_request. destruct (_ || _); [done|].
  by destruct (match resp with FetchRejects _ => _ | _ => _ end).
Qed.

Lemma mode_stays_interactive_witness :
  let st := Demo.stopGeneration Demo.initial in
  Demo.mode st = interactive /\
  Demo.mode (Demo.stopGeneration st) = interactive /\
  Demo.mode (Demo.typing_tick 0 st).1.2 = interactive /\
  Demo.mode (Demo.typing_timeout st) = interactive /\
  Demo.mode (Demo.stream_tick 0 st).1.2 = interactive /\
  Demo.mode (Demo.stream_timeout st) = interactive /\
  Demo.mode (Demo.handleSubmit_request st NotOk).1 = interactive /\
  Demo.stopGeneration st
  = Demo.mkState (Demo.mode st) (Demo.phase st) (Demo.typedPrompt st) (Demo.userPrompt st)
      (Demo.stageIndex st) (Demo.streamLines st) (Demo.actionFired st) (Demo.tree st) false
      (Demo.treeProto st).
Proof.
  intros st. split; [reflexivity|].
  apply (mode_stays_interactive st 0 NotOk). reflexivity.
Defined.

(** X25. The stop button from any state: it ends in interactive mode
    with the loading flag false, and pressing it a second time changes
    nothing more. *)
Theorem stopGeneration_idempotent (st : Demo.State) :
  Demo.mode (Demo.stopGeneration st) = interactive /\
  Demo.isLoading (Demo.stopGeneration st) = false /\
  Demo.stopGeneration (Demo.stopGeneration st) = Demo.stopGeneration st.
Proof. by destruct st as [[|] ph tp up si sl af tr il pr]. Qed.
